(** * The pinner of [pin/pin.go]: a shallow embedding and its properties

    The file follows the Go package [pin]: which objects a user wants to
    keep stored locally, how that record is flushed to and loaded from the
    content-addressed store, and how pin queries are answered.

    Go values are modelled as follows.
    - [key.Key] is a Go string; here a [string].
    - an [error] is either the package sentinel [ErrNotPinned], an error
      built by [fmt.Errorf] in this package, or an error handed back by a
      collaborator (DAG service, datastore), kept by its message.
    - the mutex of the pinner is not modelled: every operation runs alone.
    - a method that mutates the receiver returns the new receiver.
    - recursion through the store ([hasChild], the set codec) takes a fuel
      argument; [None] stands for a call that does not return. *)

From Stdlib Require Import ZArith NArith String Ascii List Lia DecimalString.
From stdpp Require Import base gmap sets list strings.

Set Default Proof Using "Type".

Local Open Scope string_scope.
Local Open Scope list_scope.
Local Open Scope nat_scope.
Local Open Scope stdpp_scope.

(** ** Results and errors *)

Inductive res (E A : Type) : Type :=
| Ok (a : A)
| Err (e : E).
Arguments Ok {E A} a.
Arguments Err {E A} e.

(** The errors a pinner operation can return. *)
Inductive error : Type :=
| ErrNotPinned
| Errorf (msg : string)
| Foreign (msg : string).

(** [err.Error()], as printed by the verb [%v]. *)
Definition Error (e : error) : string :=
  match e with
  | ErrNotPinned => "not pinned"
  | Errorf msg => msg
  | Foreign msg => msg
  end.

(** A call either returns or panics. *)
Inductive outcome (A : Type) : Type :=
| Returned (a : A)
| Panicked (msg : string).
Arguments Returned {A} a.
Arguments Panicked {A} msg.

(** ** Identifiers, links and nodes *)

Abbreviation Key := string (only parsing).

(** Modelled from the spec: the [merkledag] package is not part of the
    sources at hand.  A DAG node is "an immutable, content-addressed
    structure with zero or more named links to other nodes"; its payload is
    a byte slice. *)
Record Link : Type := mkLink { Name : string; Hash : Key }.

Record Node : Type := mkNode { Links : list Link; Data : list Byte.byte }.

#[global] Instance Link_eq_dec : EqDecision Link.
Proof. solve_decision. Defined.

#[global] Instance byte_eq_dec : EqDecision Byte.byte := Byte.byte_eq_dec.

#[global] Instance Node_eq_dec : EqDecision Node.
Proof. solve_decision. Defined.

(** [new(mdag.Node)]: no links, no data. *)
Definition emptyNode : Node := mkNode [] [].

(** Modelled from the spec: the collaborator interfaces of section 6.
    Content store: [Get(identifier) -> node or NotFound],
    [Put(node) -> identifier], [Remove(identifier)]; graph fetch:
    [FetchGraph(root) -> success or error].  [dagRemove] takes the node, as
    the call sites in [Flush] do, and its error is dropped there. *)
Class DAGService (D : Type) : Type := {
  dagAdd : D → Node → res string Key * D;
  dagGet : D → Key → res string Node;
  dagRemove : D → Node → D;
  FetchGraph : D → Node → option string * D
}.

(** A datastore value is an [interface{}]; the pinner only accepts bytes. *)
Inductive dsvalue : Type :=
| VBytes (b : string)
| VOther.

(** Modelled from the spec: the durable pointer record, "a single fixed key
    mapped to an opaque byte value, with Get/Put and a not-found signal". *)
Class Datastore (DS : Type) : Type := {
  dsGet : DS → string → res string dsvalue;
  dsPut : DS → string → dsvalue → res string DS
}.

(** A datastore returns what was last put under a key. *)
Definition datastore_lawful {DS : Type} `{Datastore DS} : Prop :=
  ∀ (d d' : DS) k v, dsPut d k v = Ok d' → dsGet d' k = Ok v.

(** Little-endian bytes of a multiplicity, and their value. *)
Fixpoint le_bytes (w : nat) (n : N) : list Byte.byte :=
  match w with
  | O => []
  | S w' => default Byte.x00 (Byte.of_N (n mod 256)%N) :: le_bytes w' (n / 256)%N
  end.

Fixpoint le_value (bs : list Byte.byte) : N :=
  match bs with
  | [] => 0%N
  | b :: bs' => (Byte.to_N b + 256 * le_value bs')%N
  end.

(** ** Block sets *)

(** Modelled from the spec: [blocks/set] is not part of the sources at
    hand.  A [BlockSet] is a finite set of keys; [GetKeys] lists it in an
    unspecified order. *)
Abbreviation BlockSet := (gset string) (only parsing).

Definition NewSimpleBlockSet : BlockSet := ∅.
Definition SimpleSetFromKeys (keys : list Key) : BlockSet := list_to_set keys.
Definition HasKey (s : BlockSet) (k : Key) : bool := bool_decide (k ∈ s).
Definition AddBlock (s : BlockSet) (k : Key) : BlockSet := {[k]} ∪ s.
Definition RemoveBlock (s : BlockSet) (k : Key) : BlockSet := s ∖ {[k]}.
Definition GetKeys (s : BlockSet) : list Key := elements s.

(** ** Constants of the package *)

Definition pinDatastoreKey : string := "/local/pins".
Definition linkDirect : string := "direct".
Definition linkRecursive : string := "recursive".

Definition PinMode : Type := Z.
Definition Recursive : PinMode := 0%Z.
Definition Direct : PinMode := 1%Z.
Definition NotPinned : PinMode := 2%Z.

(** ** The package *)

Module pin.

Section Pinner.

(** The DAG service, the datastore and the block store the pinner is
    built on; [node.Key()] and [k.B58String()] of the key package.  A
    key printed with the verb [%s] shows its base58 form as well. *)
Context {D DS BS : Type} `{DAGService D} `{Datastore DS}.
Variable Node_Key : Node → res string Key.
Variable B58String : Key → string.

(** The well-known key of the empty node, and the shape of the set
    encoding: number of buckets of an inner node, largest leaf, and the
    hash that assigns a key to a bucket at a given depth. *)
Variable emptyKey : Key.
Variable defaultFanout : nat.
Variable maxItems : nat.
Variable hash : nat → Key → nat.

(** *** The set codec *)

(** Modelled from the spec: [AddNodeLink] and [GetNode] of [merkledag].
    A link names the identifier of its target; following a link fetches
    the target from the store. *)
Definition AddNodeLink (n : Node) (name : string) (that : Node) : res string Node :=
  match Node_Key that with
  | Err e => Err e
  | Ok h => Ok (mkNode (Links n ++ [mkLink name h]) (Data n))
  end.

Definition GetNode (ds : D) (l : Link) : res string Node := dagGet ds (Hash l).

Definition GetNodeLink (n : Node) (name : string) : res string Link :=
  match List.find (λ l, String.eqb (Name l) name) (Links n) with
  | Some l => Ok l
  | None => Err "no link by that name"
  end.

(** Modelled from the spec: [pin/set.go] is not part of the sources at
    hand.  Section 4.1: entries are sharded "across a fixed-degree tree
    keyed by a uniform hash of the identifier, recursing into a bucket
    only when that bucket's entry count exceeds a small threshold,
    producing leaf nodes that list (identifier, multiplicity) pairs
    directly and internal nodes that are arrays of links to sub-nodes
    (empty buckets encoded as a well-known empty-node identifier)".

    A leaf has one link per entry and the multiplicities, eight bytes
    each, as its data; an inner node has [defaultFanout] links and no
    data.  The collector of internal identifiers is the set threaded
    through the calls. *)
Definition leafNode (items : list (Key * N)) : Node :=
  mkNode ((λ it, mkLink "" it.1) <$> items)
         (flat_map (λ it : Key * N, le_bytes 8 it.2) items).

Definition bucketOf (level : nat) (k : Key) : nat := hash level k mod defaultFanout.

Definition inBucket (level b : nat) (items : list (Key * N)) : list (Key * N) :=
  List.filter (λ it, Nat.eqb (bucketOf level it.1) b) items.

Fixpoint storeBuckets (rec : D → list (Key * N) → gset Key → option (res string Node * D * gset Key))
    (level : nat) (items : list (Key * N)) (bs : list nat)
    (dag : D) (internal : gset Key) (acc : list Link)
    : option (res string Node * D * gset Key) :=
  match bs with
  | [] => Some (Ok (mkNode acc []), dag, internal)
  | b :: bs' =>
    match inBucket level b items with
    | [] =>
      storeBuckets rec level items bs' dag ({[emptyKey]} ∪ internal)
                   (acc ++ [mkLink "" emptyKey])
    | sub =>
      match rec dag sub internal with
      | None => None
      | Some (Err e, dag1, internal1) => Some (Err e, dag1, internal1)
      | Some (Ok child, dag1, internal1) =>
        match dagAdd dag1 child with
        | (Err e, dag2) => Some (Err e, dag2, internal1)
        | (Ok childKey, dag2) =>
          storeBuckets rec level items bs' dag2 ({[childKey]} ∪ internal1)
                       (acc ++ [mkLink "" childKey])
        end
      end
    end
  end.

Fixpoint storeItems (fuel : nat) (level : nat) (dag : D) (items : list (Key * N))
    (internal : gset Key) : option (res string Node * D * gset Key) :=
  match fuel with
  | O => None
  | S fuel' =>
    if decide (length items ≤ maxItems)
    then Some (Ok (leafNode items), dag, internal)
    else storeBuckets (storeItems fuel' (S level)) level items
                      (seq 0 defaultFanout) dag internal []
  end.

(** [Encode]: entries of multiplicity zero are left out; the top node is
    written to the store and reported to the collector as well. *)
Definition storeMultiset (fuel : nat) (dag : D) (refcounts : gmap Key N)
    (internal : gset Key) : option (res string Node * D * gset Key) :=
  let items := List.filter (λ it : Key * N, negb (N.eqb it.2 0)) (map_to_list refcounts) in
  match storeItems fuel 0 dag items internal with
  | None => None
  | Some (Err e, dag1, internal1) => Some (Err e, dag1, internal1)
  | Some (Ok n, dag1, internal1) =>
    match dagAdd dag1 n with
    | (Err e, dag2) => Some (Err e, dag2, internal1)
    | (Ok k, dag2) => Some (Ok n, dag2, {[k]} ∪ internal1)
    end
  end.

Definition countKeys (keys : list Key) : gmap Key N :=
  fold_right (λ k m, <[k := (default 0%N (m !! k) + 1)%N]> m) ∅ keys.

Definition storeSet (fuel : nat) (dag : D) (keys : list Key) (internal : gset Key)
    : option (res string Node * D * gset Key) :=
  storeMultiset fuel dag (countKeys keys) internal.

Fixpoint parseItems (lnks : list Link) (data : list Byte.byte) : option (list (Key * N)) :=
  match lnks with
  | [] => match data with [] => Some [] | _ => None end
  | l :: lnks' =>
    if decide (8 ≤ length data)
    then match parseItems lnks' (drop 8 data) with
         | Some items => Some ((Hash l, le_value (take 8 data)) :: items)
         | None => None
         end
    else None
  end.

Fixpoint loadLinks (rec : Node → gset Key → option (res string (list (Key * N)) * gset Key))
    (dag : D) (lnks : list Link) (internal : gset Key)
    : option (res string (list (Key * N)) * gset Key) :=
  match lnks with
  | [] => Some (Ok [], internal)
  | l :: lnks' =>
    let internal1 := {[Hash l]} ∪ internal in
    if decide (Hash l = emptyKey) then loadLinks rec dag lnks' internal1
    else
      match GetNode dag l with
      | Err e => Some (Err e, internal1)
      | Ok child =>
        match rec child internal1 with
        | None => None
        | Some (Err e, internal2) => Some (Err e, internal2)
        | Some (Ok items, internal2) =>
          match loadLinks rec dag lnks' internal2 with
          | None => None
          | Some (Err e, internal3) => Some (Err e, internal3)
          | Some (Ok items', internal3) => Some (Ok (items ++ items'), internal3)
          end
        end
      end
  end.

Fixpoint loadItems (fuel : nat) (dag : D) (n : Node) (internal : gset Key)
    : option (res string (list (Key * N)) * gset Key) :=
  match fuel with
  | O => None
  | S fuel' =>
    match Data n with
    | [] => loadLinks (loadItems fuel' dag) dag (Links n) internal
    | _ =>
      match parseItems (Links n) (Data n) with
      | Some items => Some (Ok items, internal)
      | None => Some (Err "cannot parse pin set leaf", internal)
      end
    end
  end.

Definition addCounts (items : list (Key * N)) : gmap Key N :=
  fold_right (λ it m, <[it.1 := (default 0%N (m !! it.1) + it.2)%N]> m) ∅ items.

(** [Decode]: follow the named link of [root] and read the tree back. *)
Definition loadMultiset (fuel : nat) (dag : D) (root : Node) (name : string)
    (internal : gset Key) : option (res string (gmap Key N) * gset Key) :=
  match GetNodeLink root name with
  | Err e => Some (Err e, internal)
  | Ok l =>
    let internal1 := {[Hash l]} ∪ internal in
    match GetNode dag l with
    | Err e => Some (Err e, internal1)
    | Ok n =>
      match loadItems fuel dag n internal1 with
      | None => None
      | Some (Err e, internal2) => Some (Err e, internal2)
      | Some (Ok items, internal2) => Some (Ok (addCounts items), internal2)
      end
    end
  end.

Definition loadSet (fuel : nat) (dag : D) (root : Node) (name : string)
    (internal : gset Key) : option (res string (list Key) * gset Key) :=
  match loadMultiset fuel dag root name internal with
  | None => None
  | Some (Err e, internal1) => Some (Err e, internal1)
  | Some (Ok m, internal1) => Some (Ok (map_to_list m).*1, internal1)
  end.

(** *** The pinner *)

(** The [pinner] struct, without its lock. *)
Record pinner : Type := mkPinner {
  recursePin : BlockSet;
  directPin : BlockSet;
  internalPin : gset Key;
  rootNode : option Node;
  dserv : D;
  bstore : BS;
  dstore : DS
}.

Definition set_recursePin (p : pinner) (s : BlockSet) : pinner :=
  mkPinner s (directPin p) (internalPin p) (rootNode p) (dserv p) (bstore p) (dstore p).
Definition set_directPin (p : pinner) (s : BlockSet) : pinner :=
  mkPinner (recursePin p) s (internalPin p) (rootNode p) (dserv p) (bstore p) (dstore p).
Definition set_dserv (p : pinner) (d : D) : pinner :=
  mkPinner (recursePin p) (directPin p) (internalPin p) (rootNode p) d (bstore p) (dstore p).
Definition set_dstore (p : pinner) (d : DS) : pinner :=
  mkPinner (recursePin p) (directPin p) (internalPin p) (rootNode p) (dserv p) (bstore p) d.

(** [NewPinner]: both sets empty, [internalPin] the nil map, no root. *)
Definition NewPinner (dstore0 : DS) (bstore0 : BS) (serv : D) : pinner :=
  let rcset := NewSimpleBlockSet in
  let dirset := NewSimpleBlockSet in
  mkPinner rcset dirset ∅ None serv bstore0 dstore0.

(** [Pin]: pin the given node, optionally recursive. *)
Definition Pin (p : pinner) (node : Node) (recurse : bool) : option error * pinner :=
  match Node_Key node with
  | Err e => (Some (Foreign e), p)
  | Ok k =>
    if recurse then
      if HasKey (recursePin p) k then (None, p)
      else
        let p1 :=
          if HasKey (directPin p) k
          then set_directPin p (RemoveBlock (directPin p) k)
          else p in
        match FetchGraph (dserv p1) node with
        | (Some e, d') => (Some (Foreign e), set_dserv p1 d')
        | (None, d') =>
          let p2 := set_dserv p1 d' in
          (None, set_recursePin p2 (AddBlock (recursePin p2) k))
        end
    else
      match dagGet (dserv p) k with
      | Err e => (Some (Foreign e), p)
      | Ok _ =>
        if HasKey (recursePin p) k
        then (Some (Errorf (B58String k +:+ " already pinned recursively")), p)
        else (None, set_directPin p (AddBlock (directPin p) k))
      end
  end.

(** [Unpin]'s sentinel is the constructor [ErrNotPinned] of [error]. *)

Definition isInternalPin (p : pinner) (key : Key) : bool :=
  bool_decide (key ∈ internalPin p).

(** The loop of [hasChild] over [root.Links]; [rec] is the recursive
    call on a fetched node. *)
Fixpoint hasChild_links (rec : Node → option (res string bool)) (ds : D)
    (lnks : list Link) (child : Key) : option (res string bool) :=
  match lnks with
  | [] => Some (Ok false)
  | lnk :: rest =>
    let k := Hash lnk in
    if decide (k = child) then Some (Ok true)
    else
      match dagGet ds k with
      | Err e => Some (Err e)
      | Ok nd =>
        match rec nd with
        | None => None
        | Some (Err e) => Some (Err e)
        | Some (Ok true) => Some (Ok true)
        | Some (Ok false) => hasChild_links rec ds rest child
        end
      end
  end.

Fixpoint hasChild (fuel : nat) (ds : D) (root : Node) (child : Key)
    : option (res string bool) :=
  match fuel with
  | O => None
  | S fuel' => hasChild_links (λ nd, hasChild fuel' ds nd child) ds (Links root) child
  end.

(** The final loop of [isPinnedWithType] over the recursive roots. *)
Fixpoint isPinnedIndirect (fuel : nat) (ds : D) (roots : list Key) (k : Key)
    : option (string * bool * option error) :=
  match roots with
  | [] => Some ("", false, None)
  | rk :: rest =>
    match dagGet ds rk with
    | Err e => Some ("", false, Some (Foreign e))
    | Ok rnd =>
      match hasChild fuel ds rnd k with
      | None => None
      | Some (Err e) => Some ("", false, Some (Foreign e))
      | Some (Ok true) => Some (B58String rk, true, None)
      | Some (Ok false) => isPinnedIndirect fuel ds rest k
      end
    end
  end.

Definition validType (typeStr : string) : bool :=
  String.eqb typeStr "all" || String.eqb typeStr "direct"
  || String.eqb typeStr "indirect" || String.eqb typeStr "recursive"
  || String.eqb typeStr "internal".

(** [isPinnedWithType]: explanation, pinned, error. *)
Definition isPinnedWithType (fuel : nat) (p : pinner) (k : Key) (typeStr : string)
    : option (string * bool * option error) :=
  if negb (validType typeStr) then
    let err := Errorf ("Invalid type '" +:+ typeStr
                       +:+ "', must be one of {direct, indirect, recursive, internal, all}") in
    Some ("", false, Some err)
  else if (String.eqb typeStr "recursive" || String.eqb typeStr "all")
          && HasKey (recursePin p) k then Some ("recursive", true, None)
  else if String.eqb typeStr "recursive" then Some ("", false, None)
  else if (String.eqb typeStr "direct" || String.eqb typeStr "all")
          && HasKey (directPin p) k then Some ("direct", true, None)
  else if String.eqb typeStr "direct" then Some ("", false, None)
  else if (String.eqb typeStr "internal" || String.eqb typeStr "all")
          && isInternalPin p k then Some ("internal", true, None)
  else if String.eqb typeStr "internal" then Some ("", false, None)
  else isPinnedIndirect fuel (dserv p) (GetKeys (recursePin p)) k.

Definition IsPinned (fuel : nat) (p : pinner) (k : Key) :=
  isPinnedWithType fuel p k "all".

Definition IsPinnedWithType (fuel : nat) (p : pinner) (k : Key) (typeStr : string) :=
  isPinnedWithType fuel p k typeStr.

(** [Unpin] a given key. *)
Definition Unpin (fuel : nat) (p : pinner) (k : Key) (recursive : bool)
    : option (option error * pinner) :=
  match isPinnedWithType fuel p k "all" with
  | None => None
  | Some (reason, pinned, err) =>
    Some
      match err with
      | Some e => (Some e, p)
      | None =>
        if negb pinned then (Some ErrNotPinned, p)
        else if String.eqb reason "recursive" then
          if recursive
          then (None, set_recursePin p (RemoveBlock (recursePin p) k))
          else (Some (Errorf (B58String k +:+ " is pinned recursively")), p)
        else if String.eqb reason "direct" then
          (None, set_directPin p (RemoveBlock (directPin p) k))
        else
          (Some (Errorf (B58String k +:+ " is pinned indirectly under " +:+ reason)), p)
      end
  end.

Definition RemovePinWithMode (p : pinner) (key : Key) (mode : PinMode) : outcome pinner :=
  if Z.eqb mode Direct then Returned (set_directPin p (RemoveBlock (directPin p) key))
  else if Z.eqb mode Recursive then Returned (set_recursePin p (RemoveBlock (recursePin p) key))
  else Panicked "unrecognized pin type".

(** [PinWithMode]: the switch has no default case. *)
Definition PinWithMode (p : pinner) (k : Key) (mode : PinMode) : outcome pinner :=
  if Z.eqb mode Recursive then Returned (set_recursePin p (AddBlock (recursePin p) k))
  else if Z.eqb mode Direct then Returned (set_directPin p (AddBlock (directPin p) k))
  else Returned p.

Definition DirectKeys (p : pinner) : list Key := GetKeys (directPin p).
Definition RecursiveKeys (p : pinner) : list Key := GetKeys (recursePin p).
Definition InternalPins (p : pinner) : list Key := elements (internalPin p).

(** [LoadPinner]: load a pinner and its key sets from the datastore.  The
    five-second deadline of the root fetch is not modelled. *)
Definition LoadPinner (fuel : nat) (d : DS) (bstore0 : BS) (dserv0 : D)
    : option (res error pinner) :=
  match dsGet d pinDatastoreKey with
  | Err e => Some (Err (Errorf ("cannot load pin state: " +:+ e)))
  | Ok VOther =>
    Some (Err (Errorf ("cannot load pin state: " +:+ pinDatastoreKey +:+ " was not bytes")))
  | Ok (VBytes rootKey) =>
    match dagGet dserv0 rootKey with
    | Err e => Some (Err (Errorf ("cannot find pinning root object: " +:+ e)))
    | Ok root =>
      let internalPin0 : gset Key := {[rootKey]} in
      match loadSet fuel dserv0 root linkRecursive internalPin0 with
      | None => None
      | Some (Err e, _) => Some (Err (Errorf ("cannot load recursive pins: " +:+ e)))
      | Some (Ok recurseKeys, internalPin1) =>
        match loadSet fuel dserv0 root linkDirect internalPin1 with
        | None => None
        | Some (Err e, _) => Some (Err (Errorf ("cannot load direct pins: " +:+ e)))
        | Some (Ok directKeys, internalPin2) =>
          Some (Ok (mkPinner (SimpleSetFromKeys recurseKeys) (SimpleSetFromKeys directKeys)
                             internalPin2 (Some root) dserv0 bstore0 d))
        end
      end
    end
  end.

(** The clean-up at the end of [Flush]: the node behind every link of the
    old root that can be fetched is removed, then the old root itself. *)
Definition removeOldRoot (ds : D) (old : Node) : D :=
  dagRemove
    (fold_left (λ d link, match GetNode d link with
                          | Ok child => dagRemove d child
                          | Err _ => d
                          end) (Links old) ds)
    old.

(** [Flush]: encode and write the key sets.  On an error the pinner keeps
    its sets and root; what was written to the DAG service stays. *)
Definition Flush (fuel : nat) (p : pinner) : option (option error * pinner) :=
  let internalPin0 : gset Key := ∅ in
  let root := emptyNode in
  match storeSet fuel (dserv p) (GetKeys (directPin p)) internalPin0 with
  | None => None
  | Some (Err e, d1, _) => Some (Some (Foreign e), set_dserv p d1)
  | Some (Ok n, d1, internalPin1) =>
    match AddNodeLink root linkDirect n with
    | Err e => Some (Some (Foreign e), set_dserv p d1)
    | Ok root1 =>
      match storeSet fuel d1 (GetKeys (recursePin p)) internalPin1 with
      | None => None
      | Some (Err e, d2, _) => Some (Some (Foreign e), set_dserv p d2)
      | Some (Ok n', d2, internalPin2) =>
        match AddNodeLink root1 linkRecursive n' with
        | Err e => Some (Some (Foreign e), set_dserv p d2)
        | Ok root2 =>
          match dagAdd d2 emptyNode with
          | (Err e, d3) => Some (Some (Foreign e), set_dserv p d3)
          | (Ok _, d3) =>
            match dagAdd d3 root2 with
            | (Err e, d4) => Some (Some (Foreign e), set_dserv p d4)
            | (Ok k, d4) =>
              let internalPin3 := {[k]} ∪ internalPin2 in
              match dsPut (dstore p) pinDatastoreKey (VBytes k) with
              | Err e =>
                Some (Some (Errorf ("cannot store pin state: " +:+ e)), set_dserv p d4)
              | Ok dstore1 =>
                let d5 := match rootNode p with
                          | Some old => removeOldRoot d4 old
                          | None => d4
                          end in
                Some (None, mkPinner (recursePin p) (directPin p) internalPin3
                                     (Some root2) d5 (bstore p) dstore1)
              end
            end
          end
        end
      end
    end
  end.

(** *** Vocabulary of the properties *)

(** One call of [Pin] or [Unpin] that returned, with or without error. *)
Inductive pinStep : pinner → pinner → Prop :=
| step_Pin p node recurse e p' :
    Pin p node recurse = (e, p') → pinStep p p'
| step_Unpin fuel p k recursive e p' :
    Unpin fuel p k recursive = Some (e, p') → pinStep p p'.

(** [k] is named by a link of [root] or of a node fetched below it. *)
Inductive descendant (ds : D) : Node → Key → Prop :=
| descendant_link root l :
    l ∈ Links root → descendant ds root (Hash l)
| descendant_below root l nd k :
    l ∈ Links root → dagGet ds (Hash l) = Ok nd → descendant ds nd k →
    descendant ds root k.

(** [k] is an indirect pin under the recursive root [rk]. *)
Definition indirectUnder (p : pinner) (k rk : Key) : Prop :=
  rk ∈ recursePin p ∧ ∃ rnd, dagGet (dserv p) rk = Ok rnd ∧ descendant (dserv p) rnd k.

(** [k] is pinned under some classification. *)
Definition pinnedSomehow (p : pinner) (k : Key) : Prop :=
  k ∈ recursePin p ∨ k ∈ directPin p ∨ k ∈ internalPin p ∨ ∃ rk, indirectUnder p k rk.

(** Links lead to identifiers of smaller rank: the store holds no cycle,
    as content addressing guarantees. *)
Definition acyclic (ds : D) (rank : Key → nat) : Prop :=
  ∀ k nd l, dagGet ds k = Ok nd → l ∈ Links nd → rank (Hash l) < rank k.

(** The walk over the recursive roots can come to [h]: [h] is a root, or
    is named by a link below a root that can be fetched. *)
Definition walkReaches (p : pinner) (h : Key) : Prop :=
  h ∈ recursePin p
  ∨ ∃ rk rnd, rk ∈ recursePin p ∧ dagGet (dserv p) rk = Ok rnd
              ∧ descendant (dserv p) rnd h.

(** Every recursive root and every node below one can be fetched. *)
Definition graphAvailable (p : pinner) : Prop :=
  ∀ rk, rk ∈ recursePin p →
    ∃ rnd, dagGet (dserv p) rk = Ok rnd
           ∧ ∀ h, descendant (dserv p) rnd h → ∃ nd, dagGet (dserv p) h = Ok nd.

End Pinner.

(** *** The comparison of [TestMultisetRoundtrip] ([set_test.go])

    The test copies the map it has stored into [orig] and compares it with
    the map it has loaded.  For every entry of [orig] that [roundtrip] has
    too, the two counts are compared and the key is deleted from both
    maps; then every entry left in either map makes the test fail. *)
Definition compareEntry (st : bool * gmap Key N * gmap Key N) (kv : Key * N)
    : bool * gmap Key N * gmap Key N :=
  let '(success, orig, roundtrip) := st in
  match roundtrip !! kv.1 with
  | Some got =>
    ((if N.eqb got kv.2 then success else false),
     delete kv.1 orig, delete kv.1 roundtrip)
  | None => st
  end.

Definition compareRoundtrip (orig roundtrip : gmap Key N) : bool :=
  let '(success, orig', roundtrip') :=
    foldl compareEntry (true, orig, roundtrip) (map_to_list orig) in
  let success' := map_fold (λ _ _ _, false) success orig' in
  map_fold (λ _ _ _, false) success' roundtrip'.

End pin.

Import pin.

(** ** An in-memory store

    The services the tests of the package run on: a map datastore and an
    offline DAG service over a map of blocks. *)
Module Mem.

(** Modelled from the spec: the identifier of a node is derived from its
    content.  Here it is the content itself, written out with length
    prefixes, so that different nodes never share an identifier. *)
Definition decimal (n : nat) : string := NilEmpty.string_of_uint (Nat.to_uint n).

Definition ser_string (s : string) : string := decimal (String.length s) +:+ ":" +:+ s.

Definition ser_link (l : Link) : string := ser_string (Name l) +:+ ser_string (Hash l).

Definition ser_data (bs : list Byte.byte) : string :=
  string_of_list_ascii (Ascii.ascii_of_byte <$> bs).

Definition serialize (n : Node) : Key :=
  decimal (length (Links n)) +:+ "["
    +:+ String.concat "" (ser_link <$> Links n) +:+ "]" +:+ ser_data (Data n).

Definition Node_Key (n : Node) : res string Key := Ok (serialize n).

(** Base58 text of a key: any fixed rendering will do here. *)
Definition B58String (k : Key) : string := k.

Definition emptyKey : Key := serialize emptyNode.

(** Modelled from the spec: an offline [FetchGraph] succeeds when every
    descendant of the root is in the local store. *)
Fixpoint fetchLinks (rec : Node → option string) (m : gmap string Node)
    (lnks : list Link) : option string :=
  match lnks with
  | [] => None
  | l :: rest =>
    match m !! Hash l with
    | None => Some "merkledag: not found"
    | Some nd =>
      match rec nd with
      | Some e => Some e
      | None => fetchLinks rec m rest
      end
    end
  end.

Fixpoint fetchGraph (fuel : nat) (m : gmap string Node) (n : Node) : option string :=
  match fuel with
  | O => Some "merkledag: graph too deep"
  | S fuel' => fetchLinks (fetchGraph fuel' m) m (Links n)
  end.

#[global] Instance dag : DAGService (gmap string Node) := {|
  dagAdd m n := (Ok (serialize n), <[serialize n := n]> m);
  dagGet m k := match m !! k with
                | Some n => Ok n
                | None => Err "merkledag: not found"
                end;
  dagRemove m n := delete (serialize n) m;
  FetchGraph m n := (fetchGraph (S (size m)) m n, m)
|}.

#[global] Instance datastore : Datastore (gmap string dsvalue) := {|
  dsGet m k := match m !! k with
               | Some v => Ok v
               | None => Err "datastore: key not found"
               end;
  dsPut m k v := Ok (<[k := v]> m)
|}.

(** A pinner over the in-memory services, with a 256-way set encoding
    whose buckets are chosen by the character of the key at the depth. *)
Definition hash (level : nat) (k : Key) : nat :=
  match String.get level k with
  | Some c => nat_of_ascii c
  | None => 0
  end.

Definition pinner : Type := @pinner (gmap string Node) (gmap string dsvalue) unit.

Definition NewPinner : pinner := NewPinner ∅ tt ∅.

Definition Pin (p : pinner) (node : Node) (recurse : bool) :=
  Pin Node_Key B58String p node recurse.
Definition Unpin (fuel : nat) (p : pinner) (k : Key) (recursive : bool) :=
  Unpin B58String fuel p k recursive.
Definition Flush (fuel : nat) (p : pinner) :=
  Flush Node_Key emptyKey 256 (32 * 256) hash fuel p.
Definition LoadPinner (fuel : nat) (d : gmap string dsvalue) (ds : gmap string Node) :=
  LoadPinner (BS := unit) emptyKey fuel d tt ds.

End Mem.


(** ** Properties of the pinner *)

Section PinnerFacts.

Context {D DS BS : Type} `{DAGService D} `{Datastore DS}.
Variable Node_Key : Node → res string Key.
Variable B58String : Key → string.

Local Abbreviation pinner := (@pinner D DS BS).
Local Abbreviation Pin := (@Pin D DS BS _ Node_Key B58String).
Local Abbreviation Unpin := (@Unpin D DS BS _ B58String).
Local Abbreviation isPinnedWithType := (@isPinnedWithType D DS BS _ B58String).
Local Abbreviation pinStep := (@pinStep D DS BS _ Node_Key B58String).

Implicit Types (p : pinner) (k : Key) (node : Node).

(** *** Block sets and field updates *)

Lemma HasKey_true (s : gset string) k : HasKey s k = true ↔ k ∈ s.
Proof. unfold HasKey. apply bool_decide_eq_true. Qed.

Lemma HasKey_false (s : gset string) k : HasKey s k = false ↔ k ∉ s.
Proof. unfold HasKey. apply bool_decide_eq_false. Qed.

Lemma HasKey_in (s : gset string) k : k ∈ s → HasKey s k = true.
Proof. apply HasKey_true. Qed.

Lemma HasKey_notin (s : gset string) k : k ∉ s → HasKey s k = false.
Proof. apply HasKey_false. Qed.

(** *** [Pin] *)

(** What a direct [Pin] does, by the outcome of the fetch and of the
    membership test that follows it. *)
Lemma Pin_direct_cases p node k :
  Node_Key node = Ok k →
  Pin p node false =
    match dagGet (dserv p) k with
    | Err e => (Some (Foreign e), p)
    | Ok _ =>
      if HasKey (recursePin p) k
      then (Some (Errorf (B58String k +:+ " already pinned recursively")), p)
      else (None, set_directPin p ({[k]} ∪ directPin p))
    end.
Proof. intros Hk. unfold pin.Pin. rewrite Hk. reflexivity. Qed.

(** What a recursive [Pin] does on a key that is not pinned recursively. *)
Lemma Pin_recursive_cases p node k :
  Node_Key node = Ok k → k ∉ recursePin p →
  Pin p node true =
    let p1 := set_directPin p (directPin p ∖ {[k]}) in
    match FetchGraph (dserv p) node with
    | (Some e, d') => (Some (Foreign e), set_dserv p1 d')
    | (None, d') => (None, set_recursePin (set_dserv p1 d') ({[k]} ∪ recursePin p))
    end.
Proof.
  intros Hk Hrec. unfold pin.Pin. rewrite Hk, (HasKey_notin _ _ Hrec).
  destruct (HasKey (directPin p) k) eqn:Hdir.
  - reflexivity.
  - apply HasKey_false in Hdir.
    assert (directPin p ∖ {[k]} = directPin p) as -> by set_solver.
    destruct p; reflexivity.
Qed.

Lemma Pin_recursive_again p node k :
  Node_Key node = Ok k → k ∈ recursePin p → Pin p node true = (None, p).
Proof.
  intros Hk Hrec. unfold pin.Pin. rewrite Hk, (HasKey_in _ _ Hrec). reflexivity.
Qed.

(** [Pin] keeps the two sets apart. *)
Lemma Pin_disjoint p node recurse e p' :
  recursePin p ## directPin p → Pin p node recurse = (e, p') →
  recursePin p' ## directPin p'.
Proof.
  intros Hdisj HPin. destruct (Node_Key node) as [k|msg] eqn:Hk.
  2:{ unfold pin.Pin in HPin. rewrite Hk in HPin. by simplify_eq. }
  destruct recurse.
  - destruct (decide (k ∈ recursePin p)) as [Hin|Hout].
    + rewrite (Pin_recursive_again _ _ _ Hk Hin) in HPin. by simplify_eq.
    + rewrite (Pin_recursive_cases _ _ _ Hk Hout) in HPin. simpl in HPin.
      destruct (FetchGraph (dserv p) node) as [[msg|] d']; simplify_eq; simpl; set_solver.
  - rewrite (Pin_direct_cases _ _ _ Hk) in HPin.
    destruct (dagGet (dserv p) k); [|by simplify_eq].
    destruct (HasKey (recursePin p) k) eqn:Hrec; simplify_eq; [done|].
    apply HasKey_false in Hrec. simpl. set_solver.
Qed.

(** *** The reachability walk *)

Local Abbreviation hasChild := (@hasChild D _).
Local Abbreviation hasChild_links := (@hasChild_links D _).
Local Abbreviation isPinnedIndirect := (@isPinnedIndirect D _ B58String).
Local Abbreviation descendant := (@descendant D _).
Local Abbreviation indirectUnder := (@indirectUnder D DS BS _).
Local Abbreviation pinnedSomehow := (@pinnedSomehow D DS BS _).
Local Abbreviation acyclic := (@acyclic D _).

Lemma hasChild_links_true rec (ds : D) lnks k :
  hasChild_links rec ds lnks k = Some (Ok true) →
  ∃ l, l ∈ lnks ∧ (Hash l = k ∨ ∃ nd, dagGet ds (Hash l) = Ok nd ∧ rec nd = Some (Ok true)).
Proof.
  induction lnks as [|l rest IH]; simpl; [discriminate|].
  destruct (decide (Hash l = k)) as [Heq|Hne].
  { intros _. exists l. split; [left|]; auto. }
  destruct (dagGet ds (Hash l)) as [nd|e] eqn:Hget; [|discriminate].
  destruct (rec nd) as [[[|]|e]|] eqn:Hrec; try discriminate.
  - intros _. exists l. split; [left|]; eauto.
  - intros Hrest. destruct (IH Hrest) as (l' & Hin & Hl').
    exists l'. split; [by right|done].
Qed.

Lemma hasChild_links_false rec (ds : D) lnks k :
  hasChild_links rec ds lnks k = Some (Ok false) →
  ∀ l, l ∈ lnks → Hash l ≠ k ∧ ∃ nd, dagGet ds (Hash l) = Ok nd ∧ rec nd = Some (Ok false).
Proof.
  induction lnks as [|l rest IH]; simpl.
  { intros _ l Hl. by apply not_elem_of_nil in Hl. }
  destruct (decide (Hash l = k)) as [Heq|Hne]; [discriminate|].
  destruct (dagGet ds (Hash l)) as [nd|e] eqn:Hget; [|discriminate].
  destruct (rec nd) as [[[|]|e]|] eqn:Hrec; try discriminate.
  intros Hrest l' Hl'. apply elem_of_cons in Hl' as [->|Hl'].
  - split; [done|]. eauto.
  - by apply IH.
Qed.

Lemma hasChild_links_error rec (ds : D) lnks k e :
  hasChild_links rec ds lnks k = Some (Err e) →
  ∃ l, l ∈ lnks ∧ (dagGet ds (Hash l) = Err e
                   ∨ ∃ nd, dagGet ds (Hash l) = Ok nd ∧ rec nd = Some (Err e)).
Proof.
  induction lnks as [|l rest IH]; simpl; [discriminate|].
  destruct (decide (Hash l = k)) as [Heq|Hne]; [discriminate|].
  destruct (dagGet ds (Hash l)) as [nd|e'] eqn:Hget.
  - destruct (rec nd) as [[[|]|e']|] eqn:Hrec; try discriminate.
    + intros Hrest. destruct (IH Hrest) as (l' & Hin & Hl').
      exists l'. split; [by right|done].
    + intros [= ->]. exists l. split; [left|]; eauto.
  - intros [= ->]. exists l. split; [left|]; eauto.
Qed.

Lemma hasChild_links_returns rec (ds : D) lnks k :
  (∀ l nd, l ∈ lnks → dagGet ds (Hash l) = Ok nd → is_Some (rec nd)) →
  is_Some (hasChild_links rec ds lnks k).
Proof.
  induction lnks as [|l rest IH]; simpl; intros Hrec; [eauto|].
  destruct (decide (Hash l = k)); [eauto|].
  destruct (dagGet ds (Hash l)) as [nd|e] eqn:Hget; [|eauto].
  destruct (Hrec l nd) as [r Hr]; [left|done|]. rewrite Hr.
  destruct r as [[|]|e]; eauto.
  apply IH. intros l' nd' Hl'. apply Hrec. by right.
Qed.

Lemma hasChild_links_ext rec rec' (ds : D) lnks k r :
  (∀ nd r', rec nd = Some r' → rec' nd = Some r') →
  hasChild_links rec ds lnks k = Some r → hasChild_links rec' ds lnks k = Some r.
Proof.
  intros Hext. induction lnks as [|l rest IH]; simpl; [done|].
  destruct (decide (Hash l = k)); [done|].
  destruct (dagGet ds (Hash l)) as [nd|e]; [|done].
  destruct (rec nd) as [r'|] eqn:Hrec; [|discriminate].
  rewrite (Hext _ _ Hrec). destruct r' as [[|]|e]; auto.
Qed.

(** Soundness: an answer [true] names a descendant. *)
Lemma hasChild_true fuel (ds : D) root k :
  hasChild fuel ds root k = Some (Ok true) → descendant ds root k.
Proof.
  revert root. induction fuel as [|fuel IH]; intros root; simpl; [discriminate|].
  intros Hloop. apply hasChild_links_true in Hloop as (l & Hin & [<-|(nd & Hget & Hnd)]).
  - by constructor.
  - eapply descendant_below; eauto.
Qed.

(** Completeness: an answer [false] means there is no such descendant. *)
Lemma hasChild_false fuel (ds : D) root k :
  hasChild fuel ds root k = Some (Ok false) → ¬ descendant ds root k.
Proof.
  revert root. induction fuel as [|fuel IH]; intros root; simpl; [discriminate|].
  intros Hloop Hdesc. pose proof (hasChild_links_false _ _ _ _ Hloop) as Hall.
  inversion Hdesc as [root' l Hin|root' l nd k' Hin Hget Hbelow]; subst.
  - by destruct (Hall l Hin).
  - destruct (Hall l Hin) as (_ & nd' & Hget' & Hnd').
    rewrite Hget in Hget'. injection Hget' as <-. by apply (IH nd).
Qed.

(** An error of the walk is the error of some fetch. *)
Lemma hasChild_error fuel (ds : D) root k e :
  hasChild fuel ds root k = Some (Err e) → ∃ h, dagGet ds h = Err e.
Proof.
  revert root. induction fuel as [|fuel IH]; intros root; simpl; [discriminate|].
  intros Hloop. apply hasChild_links_error in Hloop as (l & _ & [Hget|(nd & _ & Hnd)]); eauto.
Qed.

(** The fetch that failed is that of a key below the root. *)
Lemma hasChild_error_below fuel (ds : D) root k e :
  hasChild fuel ds root k = Some (Err e) →
  ∃ h, descendant ds root h ∧ dagGet ds h = Err e.
Proof.
  revert root. induction fuel as [|fuel IH]; intros root; simpl; [discriminate|].
  intros Hloop.
  apply hasChild_links_error in Hloop as (l & Hin & [Hget|(nd & Hget & Hnd)]).
  - exists (Hash l). split; [by constructor|done].
  - destruct (IH _ Hnd) as (h & Hdesc & Hh). exists h. split; [|done].
    by eapply descendant_below.
Qed.

(** An answer [false] has fetched every node below the root. *)
Lemma hasChild_false_available fuel (ds : D) root k :
  hasChild fuel ds root k = Some (Ok false) →
  ∀ h, descendant ds root h → ∃ nd, dagGet ds h = Ok nd.
Proof.
  revert root. induction fuel as [|fuel IH]; intros root; simpl; [discriminate|].
  intros Hloop h Hdesc. pose proof (hasChild_links_false _ _ _ _ Hloop) as Hall.
  inversion Hdesc as [root' l Hin|root' l nd k' Hin Hget Hbelow]; subst.
  - destruct (Hall l Hin) as (_ & nd & Hget & _). eauto.
  - destruct (Hall l Hin) as (_ & nd' & Hget' & Hnd').
    rewrite Hget in Hget'. injection Hget' as <-. by apply (IH nd).
Qed.

(** More fuel does not change an answer. *)
Lemma hasChild_fuel_S fuel (ds : D) root k r :
  hasChild fuel ds root k = Some r → hasChild (S fuel) ds root k = Some r.
Proof.
  revert root r. induction fuel as [|fuel IH]; intros root r; [discriminate|].
  intros Hr. change (hasChild_links (λ nd, hasChild (S fuel) ds nd k) ds (Links root) k = Some r).
  eapply hasChild_links_ext; [|exact Hr]. intros nd r'. apply IH.
Qed.

Lemma hasChild_fuel_le fuel fuel' (ds : D) root k r :
  fuel ≤ fuel' → hasChild fuel ds root k = Some r → hasChild fuel' ds root k = Some r.
Proof. induction 1; [done|]. intros Hr. by apply hasChild_fuel_S, IHle. Qed.

(** On a store without cycles the walk returns once the fuel exceeds the
    rank of every link of the root. *)
Lemma hasChild_returns (ds : D) rank k fuel root :
  acyclic ds rank →
  (∀ l, l ∈ Links root → rank (Hash l) < fuel) →
  is_Some (hasChild (S fuel) ds root k).
Proof.
  intros Hacyc. revert root. induction fuel as [|fuel IH]; intros root Hrank.
  - apply hasChild_links_returns. intros l nd Hl _. specialize (Hrank l Hl). lia.
  - apply hasChild_links_returns. intros l nd Hl Hget. apply IH.
    intros l' Hl'. specialize (Hrank l Hl). specialize (Hacyc _ _ _ Hget Hl'). lia.
Qed.

(** The loop over the recursive roots: found under a root, found under no
    root, or stopped by a failing fetch. *)
Lemma isPinnedIndirect_cases fuel (ds : D) roots k reason pinned err :
  isPinnedIndirect fuel ds roots k = Some (reason, pinned, err) →
  (pinned = true ∧ err = None ∧
     ∃ rk rnd, rk ∈ roots ∧ dagGet ds rk = Ok rnd ∧ descendant ds rnd k
               ∧ reason = B58String rk)
  ∨ (pinned = false ∧ err = None ∧ reason = "" ∧
     ∀ rk, rk ∈ roots → ∃ rnd, dagGet ds rk = Ok rnd ∧ ¬ descendant ds rnd k)
  ∨ (pinned = false ∧ reason = "" ∧
     ∃ msg h, err = Some (Foreign msg) ∧ dagGet ds h = Err msg).
Proof.
  induction roots as [|rk rest IH]; simpl.
  { intros [= <- <- <-]. right; left. repeat split; auto.
    intros rk Hrk. by apply not_elem_of_nil in Hrk. }
  destruct (dagGet ds rk) as [rnd|e] eqn:Hget.
  2:{ intros [= <- <- <-]. right; right. eauto 10. }
  destruct (hasChild fuel ds rnd k) as [[[|]|e]|] eqn:Hwalk; [| | |discriminate].
  - intros [= <- <- <-]. left. repeat split; auto.
    exists rk, rnd. repeat split; auto; [left|by eapply hasChild_true].
  - intros Hrest. destruct (IH Hrest) as [Hfound|[Hnone|Hfail]].
    + left. destruct Hfound as (? & ? & rk' & rnd' & Hin & ?).
      repeat split; auto. exists rk', rnd'. split; [by right|done].
    + right; left. destruct Hnone as (? & ? & ? & Hall). repeat split; auto.
      intros rk' Hin. apply elem_of_cons in Hin as [->|Hin]; [|by apply Hall].
      exists rnd. split; [done|]. by eapply hasChild_false.
    + right; right. done.
  - intros [= <- <- <-]. right; right. repeat split; auto.
    apply hasChild_error in Hwalk as [h Hh]. eauto.
Qed.


(** *** [isPinnedWithType] *)

Lemma isPinnedWithType_all fuel p k :
  isPinnedWithType fuel p k "all" =
    if HasKey (recursePin p) k then Some ("recursive", true, None)
    else if HasKey (directPin p) k then Some ("direct", true, None)
    else if isInternalPin p k then Some ("internal", true, None)
    else isPinnedIndirect fuel (dserv p) (GetKeys (recursePin p)) k.
Proof.
  unfold pin.isPinnedWithType. cbn.
  destruct (HasKey (recursePin p) k), (HasKey (directPin p) k), (isInternalPin p k);
    reflexivity.
Qed.

Lemma isPinnedWithType_recursive fuel p k :
  isPinnedWithType fuel p k "recursive" =
    if HasKey (recursePin p) k then Some ("recursive", true, None)
    else Some ("", false, None).
Proof. unfold pin.isPinnedWithType. cbn. by destruct (HasKey (recursePin p) k). Qed.

Lemma isPinnedWithType_direct fuel p k :
  isPinnedWithType fuel p k "direct" =
    if HasKey (directPin p) k then Some ("direct", true, None)
    else Some ("", false, None).
Proof. unfold pin.isPinnedWithType. cbn. by destruct (HasKey (directPin p) k). Qed.



(** *** [Unpin] *)

Lemma Unpin_recursive fuel p k recursive :
  k ∈ recursePin p →
  Unpin fuel p k recursive =
    Some (if recursive
          then (None, set_recursePin p (recursePin p ∖ {[k]}))
          else (Some (Errorf (B58String k +:+ " is pinned recursively")), p)).
Proof.
  intros Hin. unfold pin.Unpin.
  rewrite isPinnedWithType_all, (HasKey_in _ _ Hin). reflexivity.
Qed.

Lemma Unpin_direct fuel p k recursive :
  k ∉ recursePin p → k ∈ directPin p →
  Unpin fuel p k recursive = Some (None, set_directPin p (directPin p ∖ {[k]})).
Proof.
  intros Hrec Hdir. unfold pin.Unpin.
  rewrite isPinnedWithType_all, (HasKey_notin _ _ Hrec), (HasKey_in _ _ Hdir). reflexivity.
Qed.

Lemma Unpin_internal fuel p k recursive :
  k ∉ recursePin p → k ∉ directPin p → k ∈ internalPin p →
  Unpin fuel p k recursive =
    Some (Some (Errorf (B58String k +:+ " is pinned indirectly under internal")), p).
Proof.
  intros Hrec Hdir Hint. unfold pin.Unpin.
  rewrite isPinnedWithType_all, (HasKey_notin _ _ Hrec), (HasKey_notin _ _ Hdir).
  unfold isInternalPin. rewrite bool_decide_eq_true_2 by done. reflexivity.
Qed.




(** [Unpin] only ever takes keys out of the two sets. *)
Lemma Unpin_subseteq fuel p k recursive e p' :
  Unpin fuel p k recursive = Some (e, p') →
  recursePin p' ⊆ recursePin p ∧ directPin p' ⊆ directPin p.
Proof.
  unfold pin.Unpin.
  destruct (isPinnedWithType fuel p k "all") as [[[reason pinned] err]|]; [|discriminate].
  intros [= Heq]. revert Heq.
  destruct err; [by intros [= <- <-]|].
  destruct (negb pinned); [by intros [= <- <-]|].
  destruct (String.eqb reason "recursive").
  { destruct recursive; intros [= <- <-]; simpl; unfold RemoveBlock; set_solver. }
  destruct (String.eqb reason "direct"); intros [= <- <-]; simpl;
    unfold RemoveBlock; set_solver.
Qed.

Lemma pinStep_disjoint p p' :
  recursePin p ## directPin p → pinStep p p' → recursePin p' ## directPin p'.
Proof.
  intros Hdisj Hstep. destruct Hstep as [p node recurse e p' HPin|fuel p k recursive e p' HUn].
  - by eapply Pin_disjoint.
  - apply Unpin_subseteq in HUn as [Hr Hd]. set_solver.
Qed.

(** C2: along every sequence of [Pin] and [Unpin] calls that starts from
    [NewPinner], no key is in [directPin] and [recursePin] at once; there,
    a recursive [Pin] leaves its target out of [directPin], and a direct
    [Pin] of a recursively pinned target fails and leaves [directPin] as
    it was. *)
Theorem Pin_Unpin_keep_direct_and_recursive_apart
    (dstore0 : DS) (bstore0 : BS) (serv : D) p :
  rtc pinStep (NewPinner dstore0 bstore0 serv) p →
  (∀ k, ¬ (k ∈ directPin p ∧ k ∈ recursePin p))
  ∧ (∀ node k e p', Node_Key node = Ok k → Pin p node true = (e, p') →
       k ∉ directPin p')
  ∧ (∀ node k e p', Node_Key node = Ok k → k ∈ recursePin p →
       Pin p node false = (e, p') → e ≠ None ∧ directPin p' = directPin p).
Proof.
  intros Hrun.
  assert (recursePin p ## directPin p) as Hdisj.
  { apply (rtc_ind_r (R := pinStep) (λ q, recursePin q ## directPin q)
                     (NewPinner dstore0 bstore0 serv)); [| |exact Hrun].
    - simpl. unfold NewSimpleBlockSet. set_solver.
    - intros q q' _ Hstep Hq. by eapply pinStep_disjoint. }
  split; [|split].
  - intros k [Hd Hr]. set_solver.
  - intros node k e p' Hk HPin.
    destruct (decide (k ∈ recursePin p)) as [Hin|Hout].
    + rewrite (Pin_recursive_again _ _ _ Hk Hin) in HPin.
      injection HPin as <- <-. set_solver.
    + rewrite (Pin_recursive_cases _ _ _ Hk Hout) in HPin. simpl in HPin.
      destruct (FetchGraph (dserv p) node) as [[msg|] d'];
        (injection HPin as <- <-); simpl; set_solver.
  - intros node k e p' Hk Hin HPin.
    rewrite (Pin_direct_cases _ _ _ Hk), (HasKey_in _ _ Hin) in HPin.
    destruct (dagGet (dserv p) k); injection HPin as <- <-; done.
Qed.

(** C3, as the code has it: a direct [Pin] first fetches the target and
    returns the error of a failed fetch; then, if the target is pinned
    recursively, it fails with "<id> already pinned recursively";
    otherwise it adds the target to [directPin].  In both failures the
    pinner is unchanged. *)
Theorem Pin_direct_fetches_then_checks p node k :
  Node_Key node = Ok k →
  (∀ e, dagGet (dserv p) k = Err e → Pin p node false = (Some (Foreign e), p))
  ∧ (∀ nd, dagGet (dserv p) k = Ok nd → k ∈ recursePin p →
       Pin p node false =
         (Some (Errorf (B58String k +:+ " already pinned recursively")), p))
  ∧ (∀ nd, dagGet (dserv p) k = Ok nd → k ∉ recursePin p →
       Pin p node false = (None, set_directPin p ({[k]} ∪ directPin p))).
Proof.
  intros Hk. rewrite (Pin_direct_cases _ _ _ Hk). split; [|split].
  - by intros e ->.
  - intros nd -> Hin. by rewrite (HasKey_in _ _ Hin).
  - intros nd -> Hout. by rewrite (HasKey_notin _ _ Hout).
Qed.

(** C4: when the graph fetch of a target that is not pinned recursively
    fails, a recursive [Pin] returns the fetch error, [recursePin] is
    unchanged and the target is not classified as recursive; when the
    target is already in [recursePin], the call returns no error and the
    pinner, DAG service included, is untouched. *)
Theorem Pin_recursive_fetch_failure p node k :
  Node_Key node = Ok k →
  (k ∉ recursePin p →
     ∀ e d', FetchGraph (dserv p) node = (Some e, d') →
       ∃ p', Pin p node true = (Some (Foreign e), p')
             ∧ recursePin p' = recursePin p
             ∧ (k ∉ recursePin p')
             ∧ ∀ fuel, isPinnedWithType fuel p' k "recursive" = Some ("", false, None))
  ∧ (k ∈ recursePin p → Pin p node true = (None, p)).
Proof.
  intros Hk. split.
  - intros Hout e d' Hfetch. rewrite (Pin_recursive_cases _ _ _ Hk Hout). simpl.
    rewrite Hfetch. eexists. split; [reflexivity|]. simpl. repeat split; auto.
    intros fuel. rewrite isPinnedWithType_recursive. simpl.
    by rewrite (HasKey_notin _ _ Hout).
  - by apply Pin_recursive_again.
Qed.

(** *** The walk over the recursive roots *)

Local Abbreviation IsPinned := (@IsPinned D DS BS _ B58String).
Local Abbreviation walkReaches := (@walkReaches D DS BS _).
Local Abbreviation graphAvailable := (@graphAvailable D DS BS _).

Lemma indirectUnder_GetKeys p k rk rnd :
  rk ∈ GetKeys (recursePin p) → dagGet (dserv p) rk = Ok rnd →
  descendant (dserv p) rnd k → indirectUnder p k rk.
Proof.
  intros Hin Hget Hdesc. split; [by apply elem_of_elements in Hin|eauto].
Qed.

(** The loop over the recursive roots, with what each answer has seen:
    an answer [true] has found the key below a root; an answer [false]
    without error has fetched every root and every node below one, and
    found the key below none; an error is that of fetching a root, or a
    key below a root that was fetched. *)
Lemma isPinnedIndirect_exact fuel (ds : D) roots k reason pinned err :
  isPinnedIndirect fuel ds roots k = Some (reason, pinned, err) →
  (pinned = true ∧ err = None ∧
     ∃ rk rnd, rk ∈ roots ∧ dagGet ds rk = Ok rnd ∧ descendant ds rnd k
               ∧ reason = B58String rk)
  ∨ (pinned = false ∧ err = None ∧ reason = "" ∧
     ∀ rk, rk ∈ roots →
       ∃ rnd, dagGet ds rk = Ok rnd ∧ ¬ descendant ds rnd k
              ∧ ∀ h, descendant ds rnd h → ∃ nd, dagGet ds h = Ok nd)
  ∨ (pinned = false ∧ reason = "" ∧
     ∃ msg h, err = Some (Foreign msg) ∧ dagGet ds h = Err msg
              ∧ (h ∈ roots
                 ∨ ∃ rk rnd, rk ∈ roots ∧ dagGet ds rk = Ok rnd
                             ∧ descendant ds rnd h)).
Proof.
  induction roots as [|rk rest IH]; simpl.
  { intros [= <- <- <-]. right; left. repeat split; auto.
    intros rk Hrk. by apply not_elem_of_nil in Hrk. }
  destruct (dagGet ds rk) as [rnd|e] eqn:Hget.
  2:{ intros [= <- <- <-]. right; right. repeat split; auto.
      exists e, rk. repeat split; auto. left; left. }
  destruct (hasChild fuel ds rnd k) as [[[|]|e]|] eqn:Hwalk; [| | |discriminate].
  - intros [= <- <- <-]. left. repeat split; auto.
    exists rk, rnd. repeat split; auto; [left|by eapply hasChild_true].
  - intros Hrest. destruct (IH Hrest) as [Hfound|[Hnone|Hfail]].
    + left. destruct Hfound as (? & ? & rk' & rnd' & Hin & ?).
      repeat split; auto. exists rk', rnd'. split; [by right|done].
    + right; left. destruct Hnone as (? & ? & ? & Hall). repeat split; auto.
      intros rk' Hin. apply elem_of_cons in Hin as [->|Hin]; [|by apply Hall].
      exists rnd. split; [done|]. split; [by eapply hasChild_false|].
      by eapply hasChild_false_available.
    + right; right. destruct Hfail as (? & ? & msg & h & ? & Hh & Hwhere).
      repeat split; auto. exists msg, h. repeat split; auto.
      destruct Hwhere as [Hin|(rk' & rnd' & Hin & ?)]; [left; by right|].
      right. exists rk', rnd'. split; [by right|done].
  - intros [= <- <- <-]. right; right. repeat split; auto.
    apply hasChild_error_below in Hwalk as (h & Hdesc & Hh).
    exists e, h. repeat split; auto. right. exists rk, rnd. split; [left|done].
Qed.

(** The same for the walk of a pinner over its recursive roots. *)
Lemma isPinnedIndirect_walk fuel p k reason pinned err :
  isPinnedIndirect fuel (dserv p) (GetKeys (recursePin p)) k
    = Some (reason, pinned, err) →
  (pinned = true ∧ err = None
     ∧ ∃ rk, indirectUnder p k rk ∧ reason = B58String rk)
  ∨ (pinned = false ∧ err = None ∧ reason = ""
     ∧ (∀ rk, ¬ indirectUnder p k rk) ∧ graphAvailable p)
  ∨ (pinned = false ∧ reason = ""
     ∧ ∃ msg h, err = Some (Foreign msg) ∧ walkReaches p h
                ∧ dagGet (dserv p) h = Err msg).
Proof.
  intros Hwalk. apply isPinnedIndirect_exact in Hwalk as [Hfound|[Hnone|Hfail]].
  - left. destruct Hfound as (-> & -> & rk & rnd & Hin & Hget & Hdesc & ->).
    repeat split; auto. exists rk. split; [by eapply indirectUnder_GetKeys|done].
  - right; left. destruct Hnone as (-> & -> & -> & Hall). repeat split; auto.
    + intros rk (Hin & rnd & Hget & Hdesc).
      destruct (Hall rk) as (rnd' & Hget' & Hno & _); [by apply elem_of_elements|].
      rewrite Hget in Hget'. injection Hget' as <-. done.
    + intros rk Hin.
      destruct (Hall rk) as (rnd & Hget & _ & Hav); [by apply elem_of_elements|].
      eauto.
  - right; right. destruct Hfail as (-> & -> & msg & h & -> & Hh & Hwhere).
    repeat split; auto. exists msg, h. repeat split; auto.
    destruct Hwhere as [Hin|(rk & rnd & Hin & Hget & Hdesc)].
    + left. by apply elem_of_elements in Hin.
    + right. exists rk, rnd. split; [by apply elem_of_elements in Hin|done].
Qed.


(** C10, as the code has it: a recursive [Pin] of a directly pinned
    target whose graph fetch fails returns the fetch error with the
    target taken out of [directPin] and not put into [recursePin]: it is
    left in neither set, the direct entry is not restored, and only the
    DAG service differs otherwise.  The target is then no longer pinned
    directly or recursively.  It is still reported pinned if it is an
    internal pin, and otherwise only as an indirect pin under a recursive
    root it is reachable from; a target that is not an internal pin and
    is reachable from no recursive root is not reported pinned by any
    answer of [IsPinned]: the target is left pinned under some
    classification exactly when it is an internal pin or reachable from a
    recursive root. *)
Theorem Pin_recursive_failure_drops_direct_pin p node k e d' :
  Node_Key node = Ok k →
  k ∈ directPin p → k ∉ recursePin p →
  FetchGraph (dserv p) node = (Some e, d') →
  ∃ p', Pin p node true = (Some (Foreign e), p')
        ∧ p' = set_dserv (set_directPin p (directPin p ∖ {[k]})) d'
        ∧ directPin p' = directPin p ∖ {[k]}
        ∧ recursePin p' = recursePin p
        ∧ internalPin p' = internalPin p
        ∧ (k ∉ directPin p') ∧ (k ∉ recursePin p')
        ∧ (∀ fuel, isPinnedWithType fuel p' k "direct" = Some ("", false, None)
                   ∧ isPinnedWithType fuel p' k "recursive" = Some ("", false, None))
        ∧ (k ∈ internalPin p →
           ∀ fuel, IsPinned fuel p' k = Some ("internal", true, None))
        ∧ (k ∉ internalPin p →
           ∀ fuel reason pinned err,
             IsPinned fuel p' k = Some (reason, pinned, err) →
             (pinned = true ∧ err = None
                ∧ ∃ rk, indirectUnder p' k rk ∧ reason = B58String rk)
             ∨ (pinned = false ∧ err = None ∧ reason = ""
                ∧ (∀ rk, ¬ indirectUnder p' k rk) ∧ graphAvailable p')
             ∨ (pinned = false ∧ reason = ""
                ∧ ∃ msg h, err = Some (Foreign msg) ∧ walkReaches p' h
                           ∧ dagGet (dserv p') h = Err msg))
        ∧ (k ∉ internalPin p → (∀ rk, ¬ indirectUnder p' k rk) →
           ∀ fuel reason pinned err,
             IsPinned fuel p' k = Some (reason, pinned, err) → pinned = false)
        ∧ (pinnedSomehow p' k ↔ k ∈ internalPin p ∨ ∃ rk, indirectUnder p' k rk).
Proof.
  intros Hk Hdir Hrec Hfetch. rewrite (Pin_recursive_cases _ _ _ Hk Hrec). simpl.
  rewrite Hfetch. eexists. split; [reflexivity|]. simpl.
  assert (k ∉ directPin p ∖ {[k]}) as Hgone by (clear Hfetch Hk; set_solver).
  assert (∀ fuel,
    IsPinned fuel (set_dserv (set_directPin p (directPin p ∖ {[k]})) d') k =
      if isInternalPin p k then Some ("internal", true, None)
      else isPinnedIndirect fuel d' (GetKeys (recursePin p)) k) as Hall.
  { intros fuel. unfold pin.IsPinned. rewrite isPinnedWithType_all. simpl.
    by rewrite (HasKey_notin _ _ Hrec), (HasKey_notin _ _ Hgone). }
  do 6 (split; [done|]). split; [|split; [|split; [|split]]].
  - intros fuel. split.
    + rewrite isPinnedWithType_direct. simpl. by rewrite (HasKey_notin _ _ Hgone).
    + rewrite isPinnedWithType_recursive. simpl. by rewrite (HasKey_notin _ _ Hrec).
  - intros Hint fuel. rewrite Hall. unfold isInternalPin.
    by rewrite bool_decide_eq_true_2.
  - intros Hint fuel reason pinned err. rewrite Hall. unfold isInternalPin.
    rewrite bool_decide_eq_false_2 by done.
    apply (isPinnedIndirect_walk fuel
             (set_dserv (set_directPin p (directPin p ∖ {[k]})) d')).
  - intros Hint Hno fuel reason pinned err. rewrite Hall. unfold isInternalPin.
    rewrite bool_decide_eq_false_2 by done. intros Hwalk.
    apply (isPinnedIndirect_walk fuel
             (set_dserv (set_directPin p (directPin p ∖ {[k]})) d'))
      in Hwalk as [(_ & _ & rk & Hrk & _)|[(-> & _)|(-> & _)]]; [|done..].
    by destruct (Hno rk).
  - unfold pin.pinnedSomehow. simpl. split.
    + intros [Hin|[Hin|[Hin|Hunder]]]; [done|done|by left|by right].
    + intros [Hin|Hunder]; [right; right; by left|by do 3 right].
Qed.




(** *** [PinWithMode] and [RemovePinWithMode] *)

(** C9, as the code has it: on a mode other than [Recursive] and
    [Direct], [RemovePinWithMode] panics, while [PinWithMode] returns and
    leaves the pinner as it was. *)
Theorem PinWithMode_unrecognized_mode_returns p k (mode : PinMode) :
  mode ≠ Recursive → mode ≠ Direct →
  PinWithMode p k mode = Returned p
  ∧ RemovePinWithMode p k mode = Panicked "unrecognized pin type".
Proof.
  intros Hr Hd. unfold PinWithMode, RemovePinWithMode.
  apply Z.eqb_neq in Hr, Hd. by rewrite Hr, Hd.
Qed.

(** *** [Flush] and [LoadPinner] *)

Section Persistence.

Variable emptyKey : Key.
Variable defaultFanout : nat.
Variable maxItems : nat.
Variable hash : nat → Key → nat.

Local Abbreviation Flush := (@Flush D DS BS _ _ Node_Key emptyKey defaultFanout maxItems hash).
Local Abbreviation LoadPinner := (@LoadPinner D DS BS _ _ emptyKey).
Local Abbreviation loadLinks := (@loadLinks D _ emptyKey).
Local Abbreviation loadItems := (@loadItems D _ emptyKey).
Local Abbreviation loadMultiset := (@loadMultiset D _ emptyKey).
Local Abbreviation loadSet := (@loadSet D _ emptyKey).

(** Decoding only ever adds to the collected internal keys. *)
Lemma loadLinks_collects rec (dag : D) lnks :
  (∀ n i r i', rec n i = Some (r, i') → i ⊆ i') →
  ∀ internal r internal',
    loadLinks rec dag lnks internal = Some (r, internal') → internal ⊆ internal'.
Proof.
  clear Node_Key B58String defaultFanout maxItems hash.
  intros Hrec. induction lnks as [|l rest IH]; intros internal r internal'; simpl.
  { by intros [= <- <-]. }
  destruct (decide (Hash l = emptyKey)).
  { intros Hrest. apply IH in Hrest. set_solver. }
  destruct (GetNode dag l) as [child|e]; [|intros [= <- <-]; set_solver].
  destruct (rec child ({[Hash l]} ∪ internal)) as [[[items|e] i2]|] eqn:Hchild;
    [| |discriminate].
  - apply Hrec in Hchild.
    destruct (loadLinks rec dag rest i2) as [[[items'|e] i3]|] eqn:Hrest;
      [| |discriminate]; apply IH in Hrest; intros [= <- <-]; set_solver.
  - apply Hrec in Hchild. intros [= <- <-]. set_solver.
Qed.

Lemma loadItems_collects fuel (dag : D) n internal r internal' :
  loadItems fuel dag n internal = Some (r, internal') → internal ⊆ internal'.
Proof.
  revert n internal r internal'.
  induction fuel as [|fuel IH]; intros n internal r internal'; simpl; [discriminate|].
  destruct (Data n).
  - apply loadLinks_collects. intros n' i r' i'. apply IH.
  - destruct (parseItems _ _); by intros [= <- <-].
Qed.

Lemma loadSet_collects fuel (dag : D) root name internal r internal' :
  loadSet fuel dag root name internal = Some (r, internal') → internal ⊆ internal'.
Proof.
  clear Node_Key B58String defaultFanout maxItems hash.
  unfold pin.loadSet, pin.loadMultiset.
  destruct (GetNodeLink root name) as [l|e]; [|by intros [= <- <-]].
  destruct (GetNode dag l) as [n|e]; [|intros [= <- <-]; set_solver].
  destruct (loadItems fuel dag n ({[Hash l]} ∪ internal)) as [[[items|e] i2]|] eqn:Hitems;
    [| |discriminate]; apply loadItems_collects in Hitems; intros [= <- <-]; set_solver.
Qed.

(** What a [LoadPinner] that succeeds has read and built. *)
Lemma LoadPinner_Ok fuel (d : DS) (bstore0 : BS) (dserv0 : D) p :
  LoadPinner fuel d bstore0 dserv0 = Some (Ok p) →
  ∃ rootKey root recurseKeys directKeys i1,
    dsGet d pinDatastoreKey = Ok (VBytes rootKey)
    ∧ dagGet dserv0 rootKey = Ok root
    ∧ loadSet fuel dserv0 root linkRecursive {[rootKey]} = Some (Ok recurseKeys, i1)
    ∧ loadSet fuel dserv0 root linkDirect i1 = Some (Ok directKeys, internalPin p)
    ∧ p = mkPinner (SimpleSetFromKeys recurseKeys) (SimpleSetFromKeys directKeys)
                   (internalPin p) (Some root) dserv0 bstore0 d.
Proof.
  unfold pin.LoadPinner.
  destruct (dsGet d pinDatastoreKey) as [[rootKey|]|e]; [| |]; try by intros [=].
  destruct (dagGet dserv0 rootKey) as [root|e] eqn:Hroot; [|by intros [=]].
  destruct (loadSet fuel dserv0 root linkRecursive {[rootKey]})
    as [[[recurseKeys|e] i1]|] eqn:Hrec; [| |]; try by intros [=].
  destruct (loadSet fuel dserv0 root linkDirect i1)
    as [[[directKeys|e] i2]|] eqn:Hdir; [| |]; try by intros [=].
  intros [= <-]. simpl. by exists rootKey, root, recurseKeys, directKeys, i1.
Qed.

Local Abbreviation storeSet := (@storeSet D _ emptyKey defaultFanout maxItems hash).
Local Abbreviation AddNodeLink := (AddNodeLink Node_Key).

(** What a [Flush] that succeeds has written and built. *)
Lemma Flush_Ok fuel p p' :
  Flush fuel p = Some (None, p') →
  ∃ n d1 i1 root1 n' d2 i2 root2 u d3 k d4 dstore1,
    storeSet fuel (dserv p) (GetKeys (directPin p)) ∅ = Some (Ok n, d1, i1)
    ∧ AddNodeLink emptyNode linkDirect n = Ok root1
    ∧ storeSet fuel d1 (GetKeys (recursePin p)) i1 = Some (Ok n', d2, i2)
    ∧ AddNodeLink root1 linkRecursive n' = Ok root2
    ∧ dagAdd d2 emptyNode = (Ok u, d3)
    ∧ dagAdd d3 root2 = (Ok k, d4)
    ∧ dsPut (dstore p) pinDatastoreKey (VBytes k) = Ok dstore1
    ∧ p' = mkPinner (recursePin p) (directPin p) ({[k]} ∪ i2) (Some root2)
                    (match rootNode p with
                     | Some old => removeOldRoot d4 old
                     | None => d4
                     end) (bstore p) dstore1.
Proof.
  unfold pin.Flush.
  destruct (storeSet fuel (dserv p) (GetKeys (directPin p)) ∅)
    as [[[[n|e] d1] i1]|] eqn:Hs1; [| |]; try by intros [=].
  destruct (AddNodeLink emptyNode linkDirect n) as [root1|e] eqn:Hl1; [|by intros [=]].
  destruct (storeSet fuel d1 (GetKeys (recursePin p)) i1)
    as [[[[n'|e] d2] i2]|] eqn:Hs2; [| |]; try by intros [=].
  destruct (AddNodeLink root1 linkRecursive n') as [root2|e] eqn:Hl2; [|by intros [=]].
  destruct (dagAdd d2 emptyNode) as [[u|e] d3] eqn:Ha1; [|by intros [=]].
  destruct (dagAdd d3 root2) as [[k|e] d4] eqn:Ha2; [|by intros [=]].
  destruct (dsPut (dstore p) pinDatastoreKey (VBytes k)) as [dstore1|e] eqn:Hput;
    [|by intros [=]].
  intros [= <-]. by exists n, d1, i1, root1, n', d2, i2, root2, u, d3, k, d4, dstore1.
Qed.

(** C7: after a [Flush] that succeeds, and after a [LoadPinner] that
    succeeds, the key stored under [pinDatastoreKey] is among
    [InternalPins]. *)
Theorem InternalPins_has_durable_root :
  datastore_lawful (DS := DS) →
  (∀ fuel p p', Flush fuel p = Some (None, p') →
     ∃ k, dsGet (dstore p') pinDatastoreKey = Ok (VBytes k) ∧ k ∈ InternalPins p')
  ∧ (∀ fuel d bstore0 dserv0 p, LoadPinner fuel d bstore0 dserv0 = Some (Ok p) →
     ∃ k, dsGet (dstore p) pinDatastoreKey = Ok (VBytes k) ∧ k ∈ InternalPins p).
Proof.
  clear B58String. intros Hlaw. split.
  - intros fuel p p' Hflush.
    apply Flush_Ok in Hflush
      as (n & d1 & i1 & root1 & n' & d2 & i2 & root2 & u & d3 & k & d4 & dstore1
          & _ & _ & _ & _ & _ & _ & Hput & ->).
    exists k. simpl. split; [by eapply Hlaw|].
    unfold InternalPins. simpl. apply elem_of_elements. set_solver.
  - intros fuel d bstore0 dserv0 p Hload.
    apply LoadPinner_Ok in Hload
      as (rootKey & root & recurseKeys & directKeys & i1 & Hget & _ & Hrec & Hdir & ->).
    exists rootKey. simpl in *. split; [done|].
    unfold InternalPins. simpl. apply elem_of_elements.
    apply loadSet_collects in Hrec, Hdir. set_solver.
Qed.

End Persistence.

End PinnerFacts.

(** ** The properties on the in-memory store *)

(** Closed equations are settled by evaluation. *)
Ltac by_evaluation :=
  lazymatch goal with
  | |- ?lhs = ?rhs => vm_cast_no_check (@eq_refl _ rhs)
  | |- ?k ∈ ?s => apply HasKey_true; vm_cast_no_check (@eq_refl bool true)
  | |- ?k ∉ ?s => apply HasKey_false; vm_cast_no_check (@eq_refl bool false)
  end.

(** Two blocks of user content and a block with a link to nowhere. *)
Definition blockA : Node := mkNode [] [Byte.x41].
Definition blockB : Node := mkNode [] [Byte.x42].
Definition blockC : Node := mkNode [mkLink "child" "QmMissing"] [].

Definition keyA : Key := Mem.serialize blockA.
Definition keyB : Key := Mem.serialize blockB.
Definition keyC : Key := Mem.serialize blockC.

(** A fresh pinner over a store that holds the three blocks. *)
Definition stocked : Mem.pinner :=
  NewPinner ∅ tt (<[keyA := blockA]> (<[keyB := blockB]> (<[keyC := blockC]> ∅))).

Definition after {A : Type} (r : A * Mem.pinner) : Mem.pinner := r.2.

Definition afterSome {A : Type} (r : option (A * Mem.pinner)) : Mem.pinner :=
  match r with
  | Some (_, p) => p
  | None => Mem.NewPinner
  end.

(** [blockA] pinned directly, then recursively, then unpinned; [blockB]
    pinned directly. *)
Definition run1 : Mem.pinner := after (Mem.Pin stocked blockA false).
Definition run2 : Mem.pinner := after (Mem.Pin run1 blockA true).
Definition run3 : Mem.pinner := afterSome (Mem.Unpin 3 run2 keyA true).
Definition run4 : Mem.pinner := after (Mem.Pin run3 blockB false).

(** A pinner whose only recursive root is a key the store does not hold,
    as [PinWithMode] builds it. *)
Definition lostRoot : Mem.pinner :=
  match PinWithMode Mem.NewPinner keyA Recursive with
  | Returned p => p
  | Panicked _ => Mem.NewPinner
  end.

(** [blockC] pinned directly; its graph cannot be fetched. *)
Definition directC : Mem.pinner := after (Mem.Pin stocked blockC false).

(** [blockA] pinned directly and flushed; then [blockB] pinned recursively
    and flushed again. *)
Definition flushedA : Mem.pinner := afterSome (Mem.Flush 3 run1).
Definition pinnedAB : Mem.pinner := after (Mem.Pin flushedA blockB true).
Definition flushedAB : Mem.pinner := afterSome (Mem.Flush 3 pinnedAB).

(** [blockA] pinned directly and flushed twice in a row. *)
Definition flushedTwice : Mem.pinner := afterSome (Mem.Flush 3 flushedA).

(** The key sets of a loaded pinner. *)
Definition loadedKeys (r : option (res error Mem.pinner)) : option (list Key * list Key) :=
  match r with
  | Some (Ok p) => Some (DirectKeys p, RecursiveKeys p)
  | _ => None
  end.

(** The nodes that encode the set holding [keyA] once and the set holding
    [keyB] once, and the roots written by the two flushes. *)
Definition setOfA : Node := mkNode [mkLink "" keyA] (le_bytes 8 1).
Definition setOfB : Node := mkNode [mkLink "" keyB] (le_bytes 8 1).

Definition rootOfA : Node :=
  mkNode [mkLink linkDirect (Mem.serialize setOfA);
          mkLink linkRecursive Mem.emptyKey] [].

Definition rootOfAB : Node :=
  mkNode [mkLink linkDirect (Mem.serialize setOfA);
          mkLink linkRecursive (Mem.serialize setOfB)] [].

(** A block with a link to [blockA], and a store that holds both. *)
Definition blockR : Node := mkNode [mkLink "a" keyA] [].
Definition keyR : Key := Mem.serialize blockR.

Definition stockedR : Mem.pinner :=
  NewPinner ∅ tt (<[keyR := blockR]> (<[keyA := blockA]> ∅)).

(** [blockR] pinned recursively: [keyA] is an indirect pin under it. *)
Definition pinnedR : Mem.pinner := after (Mem.Pin stockedR blockR true).




(** [blockC] pinned directly and flushed; the root that this writes, pinned
    directly in turn, and then recursively. *)
Definition setOfC : Node := mkNode [mkLink "" keyC] (le_bytes 8 1).

Definition rootOfC : Node :=
  mkNode [mkLink linkDirect (Mem.serialize setOfC);
          mkLink linkRecursive Mem.emptyKey] [].

Definition keyRootC : Key := Mem.serialize rootOfC.

Definition flushedC : Mem.pinner := afterSome (Mem.Flush 3 directC).
Definition directRootC : Mem.pinner := after (Mem.Pin flushedC rootOfC false).
Definition failedRootC : Mem.pinner := after (Mem.Pin directRootC rootOfC true).

Lemma Mem_datastore_lawful : datastore_lawful (DS := gmap string dsvalue).
Proof.
  intros d d' k v [= <-]. simpl. by rewrite lookup_insert_eq.
Qed.

Lemma run4_steps : rtc (pinStep Mem.Node_Key Mem.B58String) stocked run4.
Proof.
  eapply rtc_l.
  { apply (step_Pin _ _ stocked blockA false (Mem.Pin stocked blockA false).1 run1).
    apply surjective_pairing. }
  eapply rtc_l.
  { apply (step_Pin _ _ run1 blockA true (Mem.Pin run1 blockA true).1 run2).
    apply surjective_pairing. }
  eapply rtc_l.
  { apply (step_Unpin _ _ 3 run2 keyA true None run3). by_evaluation. }
  eapply rtc_l; [|apply rtc_refl].
  apply (step_Pin _ _ run3 blockB false (Mem.Pin run3 blockB false).1 run4).
  apply surjective_pairing.
Defined.

Lemma Pin_Unpin_keep_direct_and_recursive_apart_witness :
  rtc (pinStep Mem.Node_Key Mem.B58String) stocked run4
  ∧ ∀ k, ¬ (k ∈ directPin run4 ∧ k ∈ recursePin run4).
Proof.
  split; [exact run4_steps|].
  apply (Pin_Unpin_keep_direct_and_recursive_apart Mem.Node_Key Mem.B58String
           _ _ _ run4 run4_steps).
Defined.

(** C3, counterexample: with [keyA] in [recursePin] and no block under
    [keyA] in the store, a direct [Pin] returns the error of the fetch, not
    "<id> already pinned recursively": the fetch comes first. *)
Lemma Pin_direct_check_before_fetch_counterexample :
  Mem.Node_Key blockA = Ok keyA
  ∧ keyA ∈ recursePin lostRoot
  ∧ Mem.Pin lostRoot blockA false = (Some (Foreign "merkledag: not found"), lostRoot)
  ∧ (Mem.Pin lostRoot blockA false).1
      ≠ Some (Errorf (Mem.B58String keyA +:+ " already pinned recursively")).
Proof.
  assert (Mem.Pin lostRoot blockA false
          = (Some (Foreign "merkledag: not found"), lostRoot)) as HPin by by_evaluation.
  split; [reflexivity|]. split; [by_evaluation|]. split; [exact HPin|].
  rewrite HPin. discriminate.
Qed.

Lemma Pin_direct_fetches_then_checks_witness :
  Mem.Node_Key blockA = Ok keyA
  ∧ ∀ nd, dagGet (dserv run2) keyA = Ok nd → keyA ∈ recursePin run2 →
      Mem.Pin run2 blockA false =
        (Some (Errorf (Mem.B58String keyA +:+ " already pinned recursively")), run2).
Proof.
  split; [reflexivity|].
  apply (Pin_direct_fetches_then_checks Mem.Node_Key Mem.B58String run2 blockA keyA).
  reflexivity.
Defined.

Lemma Pin_recursive_fetch_failure_witness :
  Mem.Node_Key blockC = Ok keyC
  ∧ keyC ∉ recursePin stocked
  ∧ FetchGraph (dserv stocked) blockC = (Some "merkledag: not found", dserv stocked)
  ∧ ∃ p', Mem.Pin stocked blockC true = (Some (Foreign "merkledag: not found"), p')
          ∧ recursePin p' = recursePin stocked
          ∧ (keyC ∉ recursePin p')
          ∧ ∀ fuel, isPinnedWithType Mem.B58String fuel p' keyC "recursive"
                    = Some ("", false, None).
Proof.
  assert (Mem.Node_Key blockC = Ok keyC) as Hk by reflexivity.
  assert (keyC ∉ recursePin stocked) as Hout by by_evaluation.
  assert (FetchGraph (dserv stocked) blockC
          = (Some "merkledag: not found", dserv stocked)) as Hfetch by by_evaluation.
  repeat (split; [assumption|]).
  exact (proj1 (Pin_recursive_fetch_failure Mem.Node_Key Mem.B58String
                  stocked blockC keyC Hk) Hout _ _ Hfetch).
Defined.

(** C10, counterexample: [blockC] is pinned directly and the pinner is
    flushed, which makes the key of the root an internal pin; the root is
    pinned directly, then recursively.  The recursive [Pin] fails, as the
    graph below [blockC] cannot be fetched, and leaves the key of the root
    in neither [directPin] nor [recursePin]; yet [IsPinned] still reports
    it pinned, as an internal pin. *)
Lemma Pin_recursive_failure_still_pinned_counterexample :
  Mem.Flush 3 directC = Some (None, flushedC)
  ∧ rootNode flushedC = Some rootOfC
  ∧ Mem.Node_Key rootOfC = Ok keyRootC
  ∧ Mem.Pin flushedC rootOfC false = (None, directRootC)
  ∧ keyRootC ∈ directPin directRootC
  ∧ keyRootC ∉ recursePin directRootC
  ∧ FetchGraph (dserv directRootC) rootOfC
    = (Some "merkledag: not found", dserv directRootC)
  ∧ Mem.Pin directRootC rootOfC true
    = (Some (Foreign "merkledag: not found"), failedRootC)
  ∧ keyRootC ∉ directPin failedRootC
  ∧ keyRootC ∉ recursePin failedRootC
  ∧ pinnedSomehow failedRootC keyRootC
  ∧ ∀ fuel, IsPinned Mem.B58String fuel failedRootC keyRootC
            = Some ("internal", true, None).
Proof.
  assert (keyRootC ∉ directPin failedRootC) as Hdir by by_evaluation.
  assert (keyRootC ∉ recursePin failedRootC) as Hrec by by_evaluation.
  assert (keyRootC ∈ internalPin failedRootC) as Hint by by_evaluation.
  split; [by_evaluation|]. split; [by_evaluation|]. split; [reflexivity|].
  split; [by_evaluation|]. split; [by_evaluation|]. split; [by_evaluation|].
  split; [by_evaluation|]. split; [by_evaluation|].
  split; [exact Hdir|]. split; [exact Hrec|].
  split; [right; right; left; exact Hint|].
  intros fuel. unfold pin.IsPinned. rewrite isPinnedWithType_all.
  rewrite (HasKey_notin _ _ Hrec), (HasKey_notin _ _ Hdir).
  unfold isInternalPin. by rewrite bool_decide_eq_true_2.
Qed.

Lemma Pin_recursive_failure_drops_direct_pin_witness :
  Mem.Node_Key blockC = Ok keyC
  ∧ keyC ∈ directPin directC
  ∧ keyC ∉ recursePin directC
  ∧ FetchGraph (dserv directC) blockC = (Some "merkledag: not found", dserv directC)
  ∧ ∃ p', Mem.Pin directC blockC true = (Some (Foreign "merkledag: not found"), p')
          ∧ directPin p' = directPin directC ∖ {[keyC]}
          ∧ recursePin p' = recursePin directC
          ∧ (keyC ∉ directPin p') ∧ (keyC ∉ recursePin p')
          ∧ (∀ fuel,
               isPinnedWithType Mem.B58String fuel p' keyC "direct"
               = Some ("", false, None)
               ∧ isPinnedWithType Mem.B58String fuel p' keyC "recursive"
                 = Some ("", false, None))
          ∧ IsPinned Mem.B58String 3 p' keyC = Some ("", false, None)
          ∧ (∀ fuel reason pinned err,
               IsPinned Mem.B58String fuel p' keyC = Some (reason, pinned, err) →
               pinned = false)
          ∧ ¬ pinnedSomehow p' keyC.
Proof.
  assert (Mem.Node_Key blockC = Ok keyC) as Hk by reflexivity.
  assert (keyC ∈ directPin directC) as Hin by by_evaluation.
  assert (keyC ∉ recursePin directC) as Hout by by_evaluation.
  assert (FetchGraph (dserv directC) blockC
          = (Some "merkledag: not found", dserv directC)) as Hfetch by by_evaluation.
  assert (keyC ∉ internalPin directC) as Hint by by_evaluation.
  assert (recursePin directC = ∅) as Hroots by by_evaluation.
  repeat (split; [assumption|]).
  destruct (Pin_recursive_failure_drops_direct_pin Mem.Node_Key Mem.B58String
              directC blockC keyC _ _ Hk Hin Hout Hfetch)
    as (p' & HPin & Hp' & Hd & Hr & _ & Hnd & Hnr & Hq & _ & _ & Hnot & Hiff).
  assert (∀ rk, ¬ indirectUnder p' keyC rk) as Hno.
  { intros rk [Hrk _]. rewrite Hr, Hroots in Hrk. exact (not_elem_of_empty _ Hrk). }
  exists p'. do 6 (split; [assumption|]).
  split; [rewrite Hp'; by_evaluation|]. split; [exact (Hnot Hint Hno)|].
  intros Hpinned. apply Hiff in Hpinned as [Hinternal|[rk Hrk]];
    [exact (Hint Hinternal)|exact (Hno rk Hrk)].
Defined.







(** A store that answers the fetch of a key whose base58 text is the word
    direct, which no content-addressed store does: with that key as a
    recursive root, [Unpin] of a key that is only an indirect pin under it
    returns no error. *)
Lemma Unpin_indirect_under_root_named_direct :
  let p := match PinWithMode (NewPinner ∅ tt {[linkDirect := blockR]})
                             linkDirect Recursive with
           | Returned p => p
           | Panicked _ => Mem.NewPinner
           end in
  keyA ∉ recursePin p ∧ keyA ∉ directPin p ∧ keyA ∉ internalPin p
  ∧ indirectUnder p keyA linkDirect
  ∧ Mem.Unpin 3 p keyA false = Some (None, p).
Proof.
  intros p. split; [by_evaluation|]. split; [by_evaluation|]. split; [by_evaluation|].
  split; [|by_evaluation].
  split; [by_evaluation|]. exists blockR. split; [by_evaluation|].
  apply (descendant_link _ blockR (mkLink "a" keyA)). left.
Qed.




Lemma PinWithMode_unrecognized_mode_returns_witness :
  NotPinned ≠ Recursive ∧ NotPinned ≠ Direct
  ∧ PinWithMode stocked keyA NotPinned = Returned stocked
  ∧ RemovePinWithMode stocked keyA NotPinned = Panicked "unrecognized pin type".
Proof.
  assert (NotPinned ≠ Recursive) as Hr by discriminate.
  assert (NotPinned ≠ Direct) as Hd by discriminate.
  repeat (split; [assumption|]).
  exact (PinWithMode_unrecognized_mode_returns stocked keyA NotPinned Hr Hd).
Defined.

Lemma InternalPins_has_durable_root_witness :
  datastore_lawful (DS := gmap string dsvalue)
  ∧ Mem.Flush 3 run1 = Some (None, flushedA)
  ∧ ∃ k, dsGet (dstore flushedA) pinDatastoreKey = Ok (VBytes k)
         ∧ k ∈ InternalPins flushedA.
Proof.
  split; [exact Mem_datastore_lawful|].
  assert (Mem.Flush 3 run1 = Some (None, flushedA)) as Hflush by by_evaluation.
  split; [exact Hflush|].
  exact (proj1 (InternalPins_has_durable_root (BS := unit) Mem.Node_Key Mem.emptyKey
                  256 (32 * 256) Mem.hash Mem_datastore_lawful) 3 run1 flushedA Hflush).
Defined.

(** C8, at a failing input: [blockA] is pinned directly and the pinner is
    flushed; [blockB] is pinned recursively and the pinner is flushed
    again.  The node [setOfA] that encodes the direct set is unchanged: the
    old root and the new root both link to it under "direct".  The second
    [Flush] succeeds and removes it from the store together with the old
    root, so that the new record cannot be loaded. *)
Theorem Flush_removes_node_shared_with_new_root :
  rootNode pinnedAB = Some rootOfA
  ∧ dagGet (dserv pinnedAB) (Mem.serialize setOfA) = Ok setOfA
  ∧ Mem.Flush 3 pinnedAB = Some (None, flushedAB)
  ∧ rootNode flushedAB = Some rootOfAB
  ∧ dsGet (dstore flushedAB) pinDatastoreKey = Ok (VBytes (Mem.serialize rootOfAB))
  ∧ GetNodeLink rootOfA linkDirect = GetNodeLink rootOfAB linkDirect
  ∧ GetNodeLink rootOfAB linkDirect = Ok (mkLink linkDirect (Mem.serialize setOfA))
  ∧ dagGet (dserv flushedAB) (Mem.serialize setOfA) = Err "merkledag: not found"
  ∧ Mem.LoadPinner 3 (dstore flushedAB) (dserv flushedAB)
    = Some (Err (Errorf "cannot load direct pins: merkledag: not found")).
Proof.
  repeat split; by_evaluation.
Qed.

(** C1, at a failing input: [blockA] is pinned directly and the pinner is
    flushed twice.  After the first [Flush] the record loads and gives the
    key sets back.  The second [Flush] succeeds, writes the same root
    again, records its key in the datastore, and then removes that root
    from the store as the old root: [LoadPinner] fails on the store the
    [Flush] has left. *)
Theorem Flush_twice_then_LoadPinner_fails :
  Mem.Flush 3 run1 = Some (None, flushedA)
  ∧ loadedKeys (Mem.LoadPinner 3 (dstore flushedA) (dserv flushedA))
    = Some (DirectKeys flushedA, RecursiveKeys flushedA)
  ∧ DirectKeys flushedA = [keyA]
  ∧ Mem.Flush 3 flushedA = Some (None, flushedTwice)
  ∧ rootNode flushedA = Some rootOfA
  ∧ rootNode flushedTwice = Some rootOfA
  ∧ dsGet (dstore flushedTwice) pinDatastoreKey = Ok (VBytes (Mem.serialize rootOfA))
  ∧ dagGet (dserv flushedTwice) (Mem.serialize rootOfA) = Err "merkledag: not found"
  ∧ Mem.LoadPinner 3 (dstore flushedTwice) (dserv flushedTwice)
    = Some (Err (Errorf "cannot find pinning root object: merkledag: not found")).
Proof.
  repeat split; by_evaluation.
Qed.

(** ** Further properties of the pinner *)

Section PinnerMore.

Context {D DS BS : Type} `{DAGService D} `{Datastore DS}.
Variable Node_Key : Node → res string Key.
Variable B58String : Key → string.

Local Abbreviation pinner := (@pinner D DS BS).
Local Abbreviation Pin := (@Pin D DS BS _ Node_Key B58String).
Local Abbreviation Unpin := (@Unpin D DS BS _ B58String).
Local Abbreviation isPinnedWithType := (@isPinnedWithType D DS BS _ B58String).
Local Abbreviation IsPinned := (@IsPinned D DS BS _ B58String).
Local Abbreviation hasChild := (@hasChild D _).
Local Abbreviation hasChild_links := (@hasChild_links D _).
Local Abbreviation descendant := (@descendant D _).
Local Abbreviation indirectUnder := (@indirectUnder D DS BS _).
Local Abbreviation acyclic := (@acyclic D _).

Implicit Types (p : pinner) (k : Key) (node : Node).

(** *** Helpers *)

Lemma Pin_no_key p node recurse msg :
  Node_Key node = Err msg → Pin p node recurse = (Some (Foreign msg), p).
Proof. intros Hk. unfold pin.Pin. by rewrite Hk. Qed.

Lemma set_directPin_add_remove p k :
  k ∉ directPin p →
  set_directPin (set_directPin p ({[k]} ∪ directPin p))
                (RemoveBlock ({[k]} ∪ directPin p) k) = p.
Proof.
  clear Node_Key B58String. intros Hout. unfold RemoveBlock.
  assert (({[k]} ∪ directPin p) ∖ {[k]} = directPin p) as -> by set_solver.
  by destruct p.
Qed.

(** The outcomes of [Unpin]: an error and the pinner as it was, or no
    error and the key taken out of one of the two sets. *)
Lemma Unpin_outcome fuel p k recursive e p' :
  Unpin fuel p k recursive = Some (e, p') →
  (e ≠ None ∧ p' = p)
  ∨ (e = None ∧ p' = set_recursePin p (recursePin p ∖ {[k]}))
  ∨ (e = None ∧ p' = set_directPin p (directPin p ∖ {[k]})).
Proof.
  unfold pin.Unpin.
  destruct (isPinnedWithType fuel p k "all") as [[[reason pinned] err]|]; [|discriminate].
  intros [= Heq]. revert Heq.
  destruct err; [intros [= <- <-]; by left|].
  destruct (negb pinned); [intros [= <- <-]; by left|].
  destruct (String.eqb reason "recursive").
  { destruct recursive; intros [= <- <-]; [right; by left|by left]. }
  destruct (String.eqb reason "direct"); intros [= <- <-]; [right; by right|by left].
Qed.

(** *** [Pin] followed by a query *)

(** X1: a direct [Pin] that returns no error has fetched the target, found
    it outside [recursePin] and added it to [directPin]; the key is then
    among [DirectKeys] and the queries "all" and "direct" answer "direct". *)
Theorem Pin_direct_success p node p' :
  Pin p node false = (None, p') →
  ∃ k nd, Node_Key node = Ok k
          ∧ dagGet (dserv p) k = Ok nd
          ∧ (k ∉ recursePin p)
          ∧ p' = set_directPin p ({[k]} ∪ directPin p)
          ∧ k ∈ DirectKeys p'
          ∧ ∀ fuel, isPinnedWithType fuel p' k "all" = Some ("direct", true, None)
                    ∧ isPinnedWithType fuel p' k "direct" = Some ("direct", true, None).
Proof.
  intros HPin. destruct (Node_Key node) as [k|msg] eqn:Hk.
  2:{ by rewrite (Pin_no_key _ _ _ _ Hk) in HPin. }
  rewrite (Pin_direct_cases _ _ _ _ _ Hk) in HPin.
  destruct (dagGet (dserv p) k) as [nd|msg] eqn:Hget; [|discriminate].
  destruct (HasKey (recursePin p) k) eqn:Hrec; [discriminate|].
  injection HPin as <-. apply HasKey_false in Hrec.
  exists k, nd. repeat split; auto.
  - unfold DirectKeys, GetKeys. apply elem_of_elements. simpl. set_solver.
  - rewrite isPinnedWithType_all. simpl. rewrite (HasKey_notin _ _ Hrec).
    rewrite HasKey_in; [done|set_solver].
  - rewrite isPinnedWithType_direct. simpl. rewrite HasKey_in; [done|set_solver].
Qed.

(** X2: a recursive [Pin] that returns no error leaves the target in
    [recursePin], and the query "all" answers "recursive".  If the target
    was already there nothing has changed; otherwise the graph fetch has
    succeeded, the target has been added to [recursePin] and taken out of
    [directPin]. *)
Theorem Pin_recursive_success p node p' :
  Pin p node true = (None, p') →
  ∃ k, Node_Key node = Ok k
       ∧ k ∈ RecursiveKeys p'
       ∧ (∀ fuel, isPinnedWithType fuel p' k "all" = Some ("recursive", true, None))
       ∧ (k ∈ recursePin p → p' = p)
       ∧ (k ∉ recursePin p →
          FetchGraph (dserv p) node = (None, dserv p')
          ∧ recursePin p' = {[k]} ∪ recursePin p
          ∧ directPin p' = directPin p ∖ {[k]}
          ∧ k ∉ directPin p').
Proof.
  intros HPin. destruct (Node_Key node) as [k|msg] eqn:Hk.
  2:{ by rewrite (Pin_no_key _ _ _ _ Hk) in HPin. }
  exists k. split; [done|].
  destruct (decide (k ∈ recursePin p)) as [Hin|Hout].
  - rewrite (Pin_recursive_again _ _ _ _ _ Hk Hin) in HPin. injection HPin as <-.
    repeat split; try done.
    + unfold RecursiveKeys, GetKeys. by apply elem_of_elements.
    + intros fuel. rewrite isPinnedWithType_all. by rewrite (HasKey_in _ _ Hin).
  - rewrite (Pin_recursive_cases _ _ _ _ _ Hk Hout) in HPin. simpl in HPin.
    destruct (FetchGraph (dserv p) node) as [[msg|] d'] eqn:Hfetch; [discriminate|].
    injection HPin as <-. simpl. repeat split; try done.
    + unfold RecursiveKeys, GetKeys. apply elem_of_elements. simpl. set_solver.
    + intros fuel. rewrite isPinnedWithType_all. simpl.
      rewrite HasKey_in; [done|set_solver].
    + set_solver.
Qed.

(** X3: [Pin] touches nothing but the entry of its target: the internal
    pins, the root node, the datastore and the block store stay, every
    other key stays in or out of each set, a direct [Pin] leaves the DAG
    service alone, and a direct [Pin] that fails changes nothing at all. *)
Theorem Pin_frame p node recurse e p' :
  Pin p node recurse = (e, p') →
  internalPin p' = internalPin p ∧ rootNode p' = rootNode p
  ∧ dstore p' = dstore p ∧ bstore p' = bstore p
  ∧ (recurse = false → dserv p' = dserv p)
  ∧ (recurse = false → e ≠ None → p' = p)
  ∧ (∀ k k', Node_Key node = Ok k → k' ≠ k →
       (k' ∈ recursePin p' ↔ k' ∈ recursePin p)
       ∧ (k' ∈ directPin p' ↔ k' ∈ directPin p)).
Proof.
  intros HPin. destruct (Node_Key node) as [k|msg] eqn:Hk.
  2:{ rewrite (Pin_no_key _ _ _ _ Hk) in HPin. injection HPin as <- <-.
      repeat split; auto; discriminate. }
  assert (∀ ka kb : Key, Ok (E := string) k = Ok ka → kb ≠ ka → kb ≠ k) as Hother.
  { by intros ka kb [= <-]. }
  destruct recurse.
  - destruct (decide (k ∈ recursePin p)) as [Hin|Hout].
    + rewrite (Pin_recursive_again _ _ _ _ _ Hk Hin) in HPin. injection HPin as <- <-.
      repeat split; auto; discriminate.
    + rewrite (Pin_recursive_cases _ _ _ _ _ Hk Hout) in HPin. simpl in HPin.
      destruct (FetchGraph (dserv p) node) as [[msg|] d'];
        (injection HPin as <- <-); simpl;
        (split; [done|]); (split; [done|]); (split; [done|]); (split; [done|]);
        (split; [discriminate|]); (split; [discriminate|]);
        intros ka kb Hka Hne; specialize (Hother ka kb Hka Hne); set_solver.
  - rewrite (Pin_direct_cases _ _ _ _ _ Hk) in HPin.
    destruct (dagGet (dserv p) k) as [nd|msg].
    + destruct (HasKey (recursePin p) k); (injection HPin as <- <-); simpl;
        (split; [done|]); (split; [done|]); (split; [done|]); (split; [done|]);
        (split; [done|]); (split; [done|]);
        intros ka kb Hka Hne; specialize (Hother ka kb Hka Hne); set_solver.
    + injection HPin as <- <-. repeat split; auto.
Qed.

(** *** [Unpin] *)


(** X5: a direct [Pin] of a key that was in neither set, followed by
    [Unpin] of that key with any flag, gives the pinner back as it was. *)
Theorem Pin_direct_then_Unpin fuel p node k p1 recursive :
  Node_Key node = Ok k → k ∉ directPin p →
  Pin p node false = (None, p1) →
  Unpin fuel p1 k recursive = Some (None, p).
Proof.
  intros Hk Hdir HPin. rewrite (Pin_direct_cases _ _ _ _ _ Hk) in HPin.
  destruct (dagGet (dserv p) k) as [nd|msg]; [|discriminate].
  destruct (HasKey (recursePin p) k) eqn:Hrec; [discriminate|].
  injection HPin as <-. apply HasKey_false in Hrec.
  rewrite Unpin_direct; simpl; [|done|set_solver].
  f_equal. f_equal. by apply set_directPin_add_remove.
Qed.

(** X6: a recursive [Pin] of a key that was in neither set, followed by a
    recursive [Unpin], gives both sets back as they were (only the DAG
    service keeps what the graph fetch did to it); without the recursive
    flag the [Unpin] is refused and changes nothing. *)
Theorem Pin_recursive_then_Unpin fuel p node k p1 :
  Node_Key node = Ok k → k ∉ recursePin p → k ∉ directPin p →
  Pin p node true = (None, p1) →
  Unpin fuel p1 k true = Some (None, set_dserv p (dserv p1))
  ∧ Unpin fuel p1 k false
    = Some (Some (Errorf (B58String k +:+ " is pinned recursively")), p1).
Proof.
  intros Hk Hrec Hdir HPin.
  rewrite (Pin_recursive_cases _ _ _ _ _ Hk Hrec) in HPin. simpl in HPin.
  destruct (FetchGraph (dserv p) node) as [[msg|] d']; [discriminate|].
  injection HPin as <-.
  assert (k ∈ {[k]} ∪ recursePin p) as Hin by set_solver.
  split; (rewrite Unpin_recursive; [|exact Hin]); [|done].
  simpl. f_equal. f_equal. unfold set_recursePin, set_dserv. simpl.
  assert (({[k]} ∪ recursePin p) ∖ {[k]} = recursePin p) as -> by set_solver.
  assert (directPin p ∖ {[k]} = directPin p) as -> by set_solver.
  by destruct p.
Qed.

(** X19: a key that is only an internal pin cannot be unpinned: the query
    answers "internal", and [Unpin] falls into the default case of its
    switch, fails with "<id> is pinned indirectly under internal" and
    changes nothing, whatever the flag. *)
Theorem Unpin_refuses_internal_pin fuel p k recursive :
  k ∉ recursePin p → k ∉ directPin p → k ∈ InternalPins p →
  IsPinned fuel p k = Some ("internal", true, None)
  ∧ Unpin fuel p k recursive
    = Some (Some (Errorf (B58String k +:+ " is pinned indirectly under internal")), p).
Proof.
  intros Hrec Hdir Hint. unfold InternalPins in Hint.
  apply elem_of_elements in Hint. split.
  - unfold pin.IsPinned. rewrite isPinnedWithType_all.
    rewrite (HasKey_notin _ _ Hrec), (HasKey_notin _ _ Hdir).
    unfold isInternalPin. by rewrite bool_decide_eq_true_2.
  - by apply Unpin_internal.
Qed.

(** *** A pinner without pins *)

(** X7: on the pinner that [NewPinner] returns every query of a valid mode
    answers not pinned without error, for any fuel and any DAG service;
    [Unpin] returns [ErrNotPinned] and the three key lists are empty. *)
Theorem NewPinner_pins_nothing (dstore0 : DS) (bstore0 : BS) (serv : D) fuel k :
  (∀ typeStr, typeStr ∈ ["all"; "direct"; "indirect"; "recursive"; "internal"] →
     isPinnedWithType fuel (NewPinner dstore0 bstore0 serv) k typeStr
     = Some ("", false, None))
  ∧ (∀ recursive,
       Unpin fuel (NewPinner dstore0 bstore0 serv) k recursive
       = Some (Some ErrNotPinned, NewPinner dstore0 bstore0 serv))
  ∧ DirectKeys (NewPinner dstore0 bstore0 serv) = []
  ∧ RecursiveKeys (NewPinner dstore0 bstore0 serv) = []
  ∧ InternalPins (NewPinner dstore0 bstore0 serv) = [].
Proof.
  assert (∀ typeStr,
            typeStr ∈ ["all"; "direct"; "indirect"; "recursive"; "internal"] →
            isPinnedWithType fuel (NewPinner dstore0 bstore0 serv) k typeStr
            = Some ("", false, None)) as Hquery.
  { intros typeStr Hin. repeat (apply elem_of_cons in Hin as [->|Hin]); [..|by apply elem_of_nil in Hin];
      reflexivity. }
  split; [exact Hquery|]. split; [|done].
  intros recursive. unfold pin.Unpin. rewrite Hquery; [done|]. set_solver.
Qed.

(** *** The reachability walk *)

(** X8: [hasChild] is exact.  An answer [true] means the key is named by a
    link of the root or of a node fetched below it, an answer [false] means
    it is not, and an error is the error of fetching some node below the
    root. *)
Theorem hasChild_exact fuel (ds : D) root k :
  (hasChild fuel ds root k = Some (Ok true) → descendant ds root k)
  ∧ (hasChild fuel ds root k = Some (Ok false) → ¬ descendant ds root k)
  ∧ (∀ e, hasChild fuel ds root k = Some (Err e) →
       ∃ h, descendant ds root h ∧ dagGet ds h = Err e).
Proof.
  split; [apply hasChild_true|]. split; [apply hasChild_false|].
  intros e. apply hasChild_error_below.
Qed.

(** X9: on a store without cycles [hasChild] returns: once the fuel exceeds
    the rank of every link of the root there is one answer, and more fuel
    does not change it. *)
Theorem hasChild_returns_without_cycles (ds : D) rank k fuel root :
  acyclic ds rank →
  (∀ l, l ∈ Links root → rank (Hash l) < fuel) →
  ∃ r, ∀ fuel', fuel < fuel' → hasChild fuel' ds root k = Some r.
Proof.
  intros Hacyc Hrank.
  destruct (hasChild_returns ds rank k fuel root Hacyc Hrank) as [r Hr].
  exists r. intros fuel' Hlt. eapply hasChild_fuel_le; [|exact Hr]. lia.
Qed.

(** X10: [hasChild] does not detect cycles.  When the first link of the
    root leads back to the root itself, the search for any other key never
    returns. *)
Theorem hasChild_never_returns_on_cycle (ds : D) root l rest k :
  Links root = l :: rest → dagGet ds (Hash l) = Ok root → Hash l ≠ k →
  ∀ fuel, hasChild fuel ds root k = None.
Proof.
  intros Hlinks Hget Hne fuel. induction fuel as [|fuel IH]; [done|].
  simpl. rewrite Hlinks. simpl. rewrite decide_False by done.
  by rewrite Hget, IH.
Qed.

(** *** Key lists and queries by mode *)

(** X11: the key lists and the queries of the three set modes agree: a key
    is in [DirectKeys], [RecursiveKeys] or [InternalPins] exactly when the
    query "direct", "recursive" or "internal" answers pinned; these queries
    never fail and do not depend on the fuel or on the DAG service. *)
Theorem key_lists_agree_with_queries fuel p k :
  (k ∈ DirectKeys p ↔ isPinnedWithType fuel p k "direct" = Some ("direct", true, None))
  ∧ (k ∉ DirectKeys p ↔ isPinnedWithType fuel p k "direct" = Some ("", false, None))
  ∧ (k ∈ RecursiveKeys p
     ↔ isPinnedWithType fuel p k "recursive" = Some ("recursive", true, None))
  ∧ (k ∉ RecursiveKeys p
     ↔ isPinnedWithType fuel p k "recursive" = Some ("", false, None))
  ∧ (k ∈ InternalPins p
     ↔ isPinnedWithType fuel p k "internal" = Some ("internal", true, None))
  ∧ (k ∉ InternalPins p
     ↔ isPinnedWithType fuel p k "internal" = Some ("", false, None)).
Proof.
  unfold DirectKeys, RecursiveKeys, InternalPins, GetKeys.
  rewrite !elem_of_elements, isPinnedWithType_direct, isPinnedWithType_recursive.
  assert (isPinnedWithType fuel p k "internal" =
            if isInternalPin p k then Some ("internal", true, None)
            else Some ("", false, None)) as ->.
  { unfold pin.isPinnedWithType. cbn. by destruct (isInternalPin p k). }
  unfold isInternalPin, HasKey.
  repeat split; intros Hx;
    repeat match goal with
           | H : context [bool_decide ?P] |- _ => destruct (bool_decide_reflect P)
           | |- context [bool_decide ?P] => destruct (bool_decide_reflect P)
           end; done.
Qed.

(** X12: the mode "indirect" skips the three sets and is the walk alone:
    its answer names, in base58, a recursive root the key is reachable
    under, or says that the key is reachable under none, or passes on the
    error of a fetch. *)
Theorem isPinnedWithType_indirect fuel p k reason pinned err :
  isPinnedWithType fuel p k "indirect" = Some (reason, pinned, err) →
  (pinned = true ∧ err = None ∧ ∃ rk, indirectUnder p k rk ∧ reason = B58String rk)
  ∨ (pinned = false ∧ err = None ∧ reason = "" ∧ ∀ rk, ¬ indirectUnder p k rk)
  ∨ (pinned = false ∧ reason = ""
     ∧ ∃ msg h, err = Some (Foreign msg) ∧ dagGet (dserv p) h = Err msg).
Proof.
  change (isPinnedWithType fuel p k "indirect")
    with (isPinnedIndirect B58String fuel (dserv p) (GetKeys (recursePin p)) k).
  intros Hwalk. apply isPinnedIndirect_cases in Hwalk as [Hfound|[Hnone|Hfail]].
  - left. destruct Hfound as (-> & -> & rk & rnd & Hin & Hget & Hdesc & ->).
    repeat split; auto. exists rk. split; [by eapply indirectUnder_GetKeys|done].
  - right; left. destruct Hnone as (-> & -> & -> & Hall). repeat split; auto.
    intros rk (Hin & rnd & Hget & Hdesc).
    destruct (Hall rk) as (rnd' & Hget' & Hno); [by apply elem_of_elements|].
    rewrite Hget in Hget'. injection Hget' as <-. done.
  - right; right. done.
Qed.

(** X23: the shape of every answer of [isPinnedWithType], in any mode.  An
    answer "pinned" carries no error and an explanation that is true of
    the pinner: "recursive", "direct" or "internal" for a key of that set,
    or the base58 text of a recursive root the key is reachable under.  An
    answer "not pinned" carries the empty explanation, and an error always
    comes with "not pinned". *)
Theorem isPinnedWithType_answer_shape fuel p k typeStr reason pinned err :
  isPinnedWithType fuel p k typeStr = Some (reason, pinned, err) →
  (pinned = true →
     err = None
     ∧ (reason = "recursive" ∧ k ∈ recursePin p
        ∨ reason = "direct" ∧ k ∈ directPin p
        ∨ reason = "internal" ∧ k ∈ internalPin p
        ∨ ∃ rk, indirectUnder p k rk ∧ reason = B58String rk))
  ∧ (pinned = false → reason = "")
  ∧ (err ≠ None → pinned = false).
Proof.
  unfold pin.isPinnedWithType.
  destruct (negb (validType typeStr)); [by intros [= <- <- <-]|].
  destruct (_ && HasKey (recursePin p) k) eqn:Hrec.
  { apply andb_true_iff in Hrec as [_ Hrec%HasKey_true].
    intros [= <- <- <-]. split; [|done]. intros _. split; [done|]. by left. }
  destruct (String.eqb typeStr "recursive"); [by intros [= <- <- <-]|].
  destruct (_ && HasKey (directPin p) k) eqn:Hdir.
  { apply andb_true_iff in Hdir as [_ Hdir%HasKey_true].
    intros [= <- <- <-]. split; [|done]. intros _. split; [done|]. right. by left. }
  destruct (String.eqb typeStr "direct"); [by intros [= <- <- <-]|].
  destruct (_ && isInternalPin p k) eqn:Hint.
  { apply andb_true_iff in Hint as [_ Hint%bool_decide_eq_true].
    intros [= <- <- <-]. split; [|done]. intros _. split; [done|].
    right; right. by left. }
  destruct (String.eqb typeStr "internal"); [by intros [= <- <- <-]|].
  intros Hwalk. apply isPinnedIndirect_cases in Hwalk as [Hfound|[Hnone|Hfail]].
  - destruct Hfound as (-> & -> & rk & rnd & Hin & Hget & Hdesc & ->).
    split; [|done]. intros _. split; [done|]. right; right; right.
    exists rk. split; [by eapply indirectUnder_GetKeys|done].
  - by destruct Hnone as (-> & -> & -> & _).
  - by destruct Hfail as (-> & -> & _).
Qed.

(** *** [PinWithMode] and [RemovePinWithMode] *)

(** X13: [PinWithMode] with [Recursive] or [Direct] adds the key to that
    set and to nothing else, without any check; [RemovePinWithMode] with
    the same mode undoes it when the key was not in the set before, and
    removing a key that is not in the set changes nothing. *)
Theorem PinWithMode_RemovePinWithMode_round_trip p k :
  PinWithMode p k Recursive = Returned (set_recursePin p ({[k]} ∪ recursePin p))
  ∧ PinWithMode p k Direct = Returned (set_directPin p ({[k]} ∪ directPin p))
  ∧ (k ∉ recursePin p →
       RemovePinWithMode (set_recursePin p ({[k]} ∪ recursePin p)) k Recursive = Returned p
       ∧ RemovePinWithMode p k Recursive = Returned p)
  ∧ (k ∉ directPin p →
       RemovePinWithMode (set_directPin p ({[k]} ∪ directPin p)) k Direct = Returned p
       ∧ RemovePinWithMode p k Direct = Returned p).
Proof.
  clear Node_Key B58String.
  split; [done|]. split; [done|].
  unfold RemovePinWithMode, RemoveBlock. simpl.
  split; intros Hout; split; f_equal.
  - assert (({[k]} ∪ recursePin p) ∖ {[k]} = recursePin p) as -> by set_solver.
    by destruct p.
  - assert (recursePin p ∖ {[k]} = recursePin p) as -> by set_solver. by destruct p.
  - assert (({[k]} ∪ directPin p) ∖ {[k]} = directPin p) as -> by set_solver.
    by destruct p.
  - assert (directPin p ∖ {[k]} = directPin p) as -> by set_solver. by destruct p.
Qed.

(** X14: [PinWithMode] does not keep the two sets apart.  After
    [PinWithMode] with [Recursive] and then with [Direct] the key is in
    both sets; the query "all" answers "recursive"; [Unpin] without the
    recursive flag is refused, and [Unpin] with it removes the recursive
    entry only, after which the query answers "direct". *)
Theorem PinWithMode_bypasses_checks fuel p k :
  let p1 := set_recursePin p ({[k]} ∪ recursePin p) in
  let p2 := set_directPin p1 ({[k]} ∪ directPin p1) in
  let p3 := set_recursePin p2 (recursePin p2 ∖ {[k]}) in
  PinWithMode p k Recursive = Returned p1
  ∧ PinWithMode p1 k Direct = Returned p2
  ∧ k ∈ recursePin p2 ∧ k ∈ directPin p2
  ∧ IsPinned fuel p2 k = Some ("recursive", true, None)
  ∧ Unpin fuel p2 k false
    = Some (Some (Errorf (B58String k +:+ " is pinned recursively")), p2)
  ∧ Unpin fuel p2 k true = Some (None, p3)
  ∧ IsPinned fuel p3 k = Some ("direct", true, None).
Proof.
  intros p1 p2 p3.
  assert (k ∈ recursePin p2) as Hrec by (simpl; set_solver).
  assert (k ∈ directPin p2) as Hdir by (simpl; set_solver).
  split; [done|]. split; [done|]. split; [done|]. split; [done|].
  split; [|split; [|split]].
  - unfold pin.IsPinned. rewrite isPinnedWithType_all. by rewrite (HasKey_in _ _ Hrec).
  - by rewrite (Unpin_recursive _ _ _ _ _ Hrec).
  - by rewrite (Unpin_recursive _ _ _ _ _ Hrec).
  - unfold pin.IsPinned. rewrite isPinnedWithType_all.
    rewrite (HasKey_notin (recursePin p3)); [|subst p3; simpl; set_solver].
    rewrite (HasKey_in (directPin p3)); [done|]. subst p3. simpl. set_solver.
Qed.

(** *** Repeated and chained calls *)

(** X21: [Pin] is idempotent: a [Pin] that has returned no error, called
    again with the same node and flag, returns no error and leaves the
    pinner exactly as the first call left it.  For a recursive [Pin] the
    second call does not fetch again. *)
Theorem Pin_idempotent p node recurse p1 :
  Pin p node recurse = (None, p1) →
  (recurse = false → dserv p1 = dserv p ∧ Pin p1 node false = (None, p1))
  ∧ (recurse = true → Pin p1 node true = (None, p1)).
Proof.
  intros HPin. destruct (Node_Key node) as [k|msg] eqn:Hk.
  2:{ by rewrite (Pin_no_key _ _ _ _ Hk) in HPin. }
  split; intros ->.
  - rewrite (Pin_direct_cases _ _ _ _ _ Hk) in HPin.
    destruct (dagGet (dserv p) k) as [nd|msg] eqn:Hget; [|discriminate].
    destruct (HasKey (recursePin p) k) eqn:Hrec; [discriminate|].
    injection HPin as <-. split; [done|].
    rewrite (Pin_direct_cases _ _ _ _ _ Hk). simpl. rewrite Hget, Hrec.
    f_equal. unfold set_directPin. simpl. f_equal. set_solver.
  - destruct (decide (k ∈ recursePin p)) as [Hin|Hout].
    + rewrite (Pin_recursive_again _ _ _ _ _ Hk Hin) in HPin. injection HPin as <-.
      exact (Pin_recursive_again _ _ _ _ _ Hk Hin).
    + rewrite (Pin_recursive_cases _ _ _ _ _ Hk Hout) in HPin. simpl in HPin.
      destruct (FetchGraph (dserv p) node) as [[msg|] d']; [discriminate|].
      injection HPin as <-. apply (Pin_recursive_again _ _ _ _ k Hk). simpl. set_solver.
Qed.

Lemma pinStep_keeps_record p p' :
  pinStep Node_Key B58String p p' →
  internalPin p' = internalPin p ∧ rootNode p' = rootNode p ∧ dstore p' = dstore p.
Proof.
  intros [q node recurse e q' HPin|fuel q k recursive e q' HUn].
  - destruct (Node_Key node) as [k|msg] eqn:Hk.
    2:{ rewrite (Pin_no_key _ _ _ _ Hk) in HPin. by injection HPin as <- <-. }
    destruct recurse.
    + destruct (decide (k ∈ recursePin q)) as [Hin|Hout].
      * rewrite (Pin_recursive_again _ _ _ _ _ Hk Hin) in HPin. by injection HPin as <- <-.
      * rewrite (Pin_recursive_cases _ _ _ _ _ Hk Hout) in HPin. simpl in HPin.
        by destruct (FetchGraph (dserv q) node) as [[msg|] d']; injection HPin as <- <-.
    + rewrite (Pin_direct_cases _ _ _ _ _ Hk) in HPin.
      destruct (dagGet (dserv q) k) as [nd|msg]; [|by injection HPin as <- <-].
      by destruct (HasKey (recursePin q) k); injection HPin as <- <-.
  - by destruct (Unpin_outcome _ _ _ _ _ _ HUn) as [[_ ->]|[[_ ->]|[_ ->]]].
Qed.

(** X22: [Pin] and [Unpin] never touch the persisted record.  Along every
    sequence of [Pin] and [Unpin] calls that starts from [NewPinner] there
    are no internal pins, no root node, and the datastore is the one the
    pinner was made with; no key is ever answered "internal". *)
Theorem Pin_Unpin_make_no_internal_pins (dstore0 : DS) (bstore0 : BS) (serv : D) p :
  rtc (pinStep Node_Key B58String) (NewPinner dstore0 bstore0 serv) p →
  InternalPins p = [] ∧ rootNode p = None ∧ dstore p = dstore0
  ∧ ∀ fuel k, isPinnedWithType fuel p k "internal" = Some ("", false, None).
Proof.
  intros Hrun.
  assert (internalPin p = ∅ ∧ rootNode p = None ∧ dstore p = dstore0) as (Hi & Hr & Hd).
  { apply (rtc_ind_r (R := pinStep Node_Key B58String)
                     (λ q, internalPin q = ∅ ∧ rootNode q = None ∧ dstore q = dstore0)
                     (NewPinner dstore0 bstore0 serv)); [done| |exact Hrun].
    intros q q' _ Hstep (Hi & Hr & Hd).
    destruct (pinStep_keeps_record _ _ Hstep) as (-> & -> & ->). done. }
  unfold InternalPins. rewrite Hi. split; [apply elements_empty|].
  split; [done|]. split; [done|]. intros fuel k.
  unfold pin.isPinnedWithType. cbn. unfold isInternalPin. rewrite Hi.
  by rewrite bool_decide_eq_false_2 by set_solver.
Qed.

(** *** [LoadPinner] and [Flush] *)

Section PersistenceMore.

Variable emptyKey : Key.
Variable defaultFanout : nat.
Variable maxItems : nat.
Variable hash : nat → Key → nat.

Local Abbreviation Flush := (@Flush D DS BS _ _ Node_Key emptyKey defaultFanout maxItems hash).
Local Abbreviation LoadPinner := (@LoadPinner D DS BS _ _ emptyKey).
Local Abbreviation storeSet := (@storeSet D _ emptyKey defaultFanout maxItems hash).
Local Abbreviation AddNodeLink := (AddNodeLink Node_Key).

(** X15: [LoadPinner] returns no pinner when the record is not there: a
    datastore without the key, or with a value that is not bytes, gives
    "cannot load pin state: ...", and a root key without a node in the DAG
    service gives "cannot find pinning root object: ...", whatever the
    fuel.  A pinner that is returned holds the services it was given and,
    as its root node, the node stored under the key the datastore names. *)
Theorem LoadPinner_record_missing fuel (d : DS) (bstore0 : BS) (dserv0 : D) :
  (∀ e, dsGet d pinDatastoreKey = Err e →
     LoadPinner fuel d bstore0 dserv0
     = Some (Err (Errorf ("cannot load pin state: " +:+ e))))
  ∧ (dsGet d pinDatastoreKey = Ok VOther →
     LoadPinner fuel d bstore0 dserv0
     = Some (Err (Errorf "cannot load pin state: /local/pins was not bytes")))
  ∧ (∀ rootKey e, dsGet d pinDatastoreKey = Ok (VBytes rootKey) →
     dagGet dserv0 rootKey = Err e →
     LoadPinner fuel d bstore0 dserv0
     = Some (Err (Errorf ("cannot find pinning root object: " +:+ e))))
  ∧ (∀ p, LoadPinner fuel d bstore0 dserv0 = Some (Ok p) →
     ∃ rootKey root, dsGet d pinDatastoreKey = Ok (VBytes rootKey)
                     ∧ dagGet dserv0 rootKey = Ok root
                     ∧ rootNode p = Some root
                     ∧ dserv p = dserv0 ∧ dstore p = d ∧ bstore p = bstore0).
Proof.
  unfold pin.LoadPinner. split; [|split; [|split]].
  - by intros e ->.
  - by intros ->.
  - by intros rootKey e -> ->.
  - intros p Hload.
    apply (LoadPinner_Ok emptyKey) in Hload
      as (rootKey & root & recurseKeys & directKeys & i1 & Hget & Hroot & _ & _ & ->).
    by exists rootKey, root.
Qed.

(** The ways [Flush] returns: with an error and nothing but the DAG
    service changed, or without error. *)
Lemma Flush_outcome fuel p e p' :
  Flush fuel p = Some (e, p') →
  (e ≠ None ∧ ∃ d, p' = set_dserv p d) ∨ e = None.
Proof.
  unfold pin.Flush.
  destruct (storeSet fuel (dserv p) (GetKeys (directPin p)) ∅)
    as [[[[n|msg] d1] i1]|]; [| |discriminate].
  2:{ intros [= <- <-]. left. eauto. }
  destruct (AddNodeLink emptyNode linkDirect n) as [root1|msg].
  2:{ intros [= <- <-]. left. eauto. }
  destruct (storeSet fuel d1 (GetKeys (recursePin p)) i1)
    as [[[[n'|msg] d2] i2]|]; [| |discriminate].
  2:{ intros [= <- <-]. left. eauto. }
  destruct (AddNodeLink root1 linkRecursive n') as [root2|msg].
  2:{ intros [= <- <-]. left. eauto. }
  destruct (dagAdd d2 emptyNode) as [[u|msg] d3].
  2:{ intros [= <- <-]. left. eauto. }
  destruct (dagAdd d3 root2) as [[k|msg] d4].
  2:{ intros [= <- <-]. left. eauto. }
  destruct (dsPut (dstore p) pinDatastoreKey (VBytes k)) as [dstore1|msg].
  2:{ intros [= <- <-]. left. eauto. }
  intros [= <- <-]. by right.
Qed.

(** X16: [Flush] never changes the key sets, and a [Flush] that fails
    leaves the record as it was: the datastore is not written, and the
    pinner keeps its root node and its internal pins. *)
Theorem Flush_keeps_key_sets fuel p e p' :
  Flush fuel p = Some (e, p') →
  recursePin p' = recursePin p ∧ directPin p' = directPin p
  ∧ bstore p' = bstore p
  ∧ (e ≠ None →
       dstore p' = dstore p ∧ rootNode p' = rootNode p
       ∧ internalPin p' = internalPin p).
Proof.
  intros Hflush. destruct (Flush_outcome _ _ _ _ Hflush) as [[He [d ->]]| ->].
  - done.
  - apply (Flush_Ok Node_Key emptyKey defaultFanout maxItems hash) in Hflush
      as (n & d1 & i1 & root1 & n' & d2 & i2 & root2 & u & d3 & k & d4 & dstore1
          & _ & _ & _ & _ & _ & _ & _ & ->).
    done.
Qed.

(** X17: a [Flush] that succeeds leaves, as the root node of the pinner, a
    node without data whose two links are named "direct" and "recursive",
    in this order, and carry the keys of the two encoded sets; the key that
    the DAG service returned for this root is the one written to the
    datastore, and the old root is cleaned up only if there was one. *)
Theorem Flush_success_root fuel p p' :
  Flush fuel p = Some (None, p') →
  ∃ n n' hd hr d1 d2 i1 i2 d3 d4 k,
    storeSet fuel (dserv p) (GetKeys (directPin p)) ∅ = Some (Ok n, d1, i1)
    ∧ storeSet fuel d1 (GetKeys (recursePin p)) i1 = Some (Ok n', d2, i2)
    ∧ Node_Key n = Ok hd ∧ Node_Key n' = Ok hr
    ∧ rootNode p' = Some (mkNode [mkLink linkDirect hd; mkLink linkRecursive hr] [])
    ∧ dagAdd d3 (mkNode [mkLink linkDirect hd; mkLink linkRecursive hr] []) = (Ok k, d4)
    ∧ dsPut (dstore p) pinDatastoreKey (VBytes k) = Ok (dstore p')
    ∧ internalPin p' = {[k]} ∪ i2
    ∧ dserv p' = match rootNode p with
                 | Some old => removeOldRoot d4 old
                 | None => d4
                 end.
Proof.
  intros Hflush.
  apply (Flush_Ok Node_Key emptyKey defaultFanout maxItems hash) in Hflush
    as (n & d1 & i1 & root1 & n' & d2 & i2 & root2 & u & d3 & k & d4 & dstore1
        & Hs1 & Hl1 & Hs2 & Hl2 & _ & Hadd & Hput & ->).
  unfold pin.AddNodeLink in Hl1, Hl2.
  destruct (Node_Key n) as [hd|msg] eqn:Hhd; [|discriminate].
  destruct (Node_Key n') as [hr|msg] eqn:Hhr; [|discriminate].
  injection Hl1 as <-. injection Hl2 as <-. simpl in *.
  by exists n, n', hd, hr, d1, d2, i1, i2, d3, d4, k.
Qed.

End PersistenceMore.

End PinnerMore.

(** ** Further properties on the in-memory store *)

(** [blockB] pinned recursively on the stocked pinner. *)
Definition recursiveB : Mem.pinner := after (Mem.Pin stocked blockB true).

(** A store in which a node links to itself; no content-addressed store
    can hold it, the map can. *)
Definition selfLoop : Node := mkNode [mkLink "self" "QmLoop"] [].
Definition looping : gmap string Node := {["QmLoop" := selfLoop]}.

(** X18: on the in-memory store, a [Flush] that succeeds on a pinner with
    a previous root always ends with that root absent from the store.  So
    when the new root is the same node as the previous one, the record
    that the [Flush] has just written cannot be loaded. *)
Theorem Flush_always_removes_previous_root fuel (p p' : Mem.pinner) old :
  rootNode p = Some old →
  Mem.Flush fuel p = Some (None, p') →
  dagGet (dserv p') (Mem.serialize old) = Err "merkledag: not found"
  ∧ (rootNode p' = Some old →
     dsGet (dstore p') pinDatastoreKey = Ok (VBytes (Mem.serialize old))
     ∧ ∀ fuel', Mem.LoadPinner fuel' (dstore p') (dserv p')
                = Some (Err (Errorf "cannot find pinning root object: merkledag: not found"))).
Proof.
  intros Hold Hflush. unfold Mem.Flush in Hflush.
  apply Flush_Ok in Hflush
    as (n & d1 & i1 & root1 & n' & d2 & i2 & root2 & u & d3 & k & d4 & dstore1
        & _ & _ & _ & _ & _ & Hadd & Hput & ->).
  rewrite Hold. simpl in Hadd, Hput. injection Hadd as <- <-. injection Hput as <-.
  assert (∀ d : gmap string Node,
            dagGet (removeOldRoot d old) (Mem.serialize old) = Err "merkledag: not found")
    as Hgone.
  { intros d. unfold removeOldRoot. simpl. by rewrite lookup_delete_eq. }
  assert (∀ (m : gmap string dsvalue) v,
            dsGet (<[pinDatastoreKey := v]> m) pinDatastoreKey = Ok v) as Hread.
  { intros m v. by apply (Mem_datastore_lawful m _ pinDatastoreKey v). }
  cbn [dserv dstore rootNode].
  split; [apply Hgone|]. intros [= ->].
  split; [apply Hread|].
  intros fuel'. unfold Mem.LoadPinner, LoadPinner.
  by rewrite Hread, Hgone.
Qed.

Lemma Flush_always_removes_previous_root_witness :
  rootNode flushedA = Some rootOfA
  ∧ Mem.Flush 3 flushedA = Some (None, flushedTwice)
  ∧ dagGet (dserv flushedTwice) (Mem.serialize rootOfA) = Err "merkledag: not found".
Proof.
  assert (rootNode flushedA = Some rootOfA) as Hold by by_evaluation.
  assert (Mem.Flush 3 flushedA = Some (None, flushedTwice)) as Hflush by by_evaluation.
  repeat (split; [assumption|]).
  exact (proj1 (Flush_always_removes_previous_root 3 flushedA flushedTwice rootOfA
                  Hold Hflush)).
Defined.

Lemma Pin_direct_success_witness :
  Mem.Pin stocked blockA false = (None, run1)
  ∧ ∃ k nd, Mem.Node_Key blockA = Ok k
            ∧ dagGet (dserv stocked) k = Ok nd
            ∧ (k ∉ recursePin stocked)
            ∧ run1 = set_directPin stocked ({[k]} ∪ directPin stocked)
            ∧ k ∈ DirectKeys run1
            ∧ ∀ fuel,
                isPinnedWithType Mem.B58String fuel run1 k "all"
                = Some ("direct", true, None)
                ∧ isPinnedWithType Mem.B58String fuel run1 k "direct"
                  = Some ("direct", true, None).
Proof.
  assert (Mem.Pin stocked blockA false = (None, run1)) as HPin by by_evaluation.
  split; [exact HPin|].
  exact (Pin_direct_success Mem.Node_Key Mem.B58String stocked blockA run1 HPin).
Defined.

Lemma Pin_recursive_success_witness :
  Mem.Pin run1 blockA true = (None, run2)
  ∧ ∃ k, Mem.Node_Key blockA = Ok k ∧ k ∈ RecursiveKeys run2.
Proof.
  assert (Mem.Pin run1 blockA true = (None, run2)) as HPin by by_evaluation.
  split; [exact HPin|].
  destruct (Pin_recursive_success Mem.Node_Key Mem.B58String run1 blockA run2 HPin)
    as (k & Hk & Hin & _).
  by exists k.
Defined.

Lemma Pin_frame_witness :
  Mem.Pin run1 blockA true = (None, run2)
  ∧ internalPin run2 = internalPin run1 ∧ rootNode run2 = rootNode run1.
Proof.
  assert (Mem.Pin run1 blockA true = (None, run2)) as HPin by by_evaluation.
  split; [exact HPin|].
  destruct (Pin_frame Mem.Node_Key Mem.B58String run1 blockA true None run2 HPin)
    as (Hi & Hr & _).
  by split.
Defined.


Lemma Pin_direct_then_Unpin_witness :
  Mem.Node_Key blockA = Ok keyA
  ∧ (keyA ∉ directPin stocked)
  ∧ Mem.Pin stocked blockA false = (None, run1)
  ∧ Mem.Unpin 3 run1 keyA false = Some (None, stocked).
Proof.
  assert (Mem.Node_Key blockA = Ok keyA) as Hk by reflexivity.
  assert (keyA ∉ directPin stocked) as Hout by by_evaluation.
  assert (Mem.Pin stocked blockA false = (None, run1)) as HPin by by_evaluation.
  repeat (split; [assumption|]).
  exact (Pin_direct_then_Unpin Mem.Node_Key Mem.B58String 3 stocked blockA keyA run1
           false Hk Hout HPin).
Defined.

Lemma Pin_recursive_then_Unpin_witness :
  Mem.Node_Key blockB = Ok keyB
  ∧ (keyB ∉ recursePin stocked) ∧ (keyB ∉ directPin stocked)
  ∧ Mem.Pin stocked blockB true = (None, recursiveB)
  ∧ Mem.Unpin 3 recursiveB keyB true = Some (None, set_dserv stocked (dserv recursiveB)).
Proof.
  assert (Mem.Node_Key blockB = Ok keyB) as Hk by reflexivity.
  assert (keyB ∉ recursePin stocked) as Hrec by by_evaluation.
  assert (keyB ∉ directPin stocked) as Hdir by by_evaluation.
  assert (Mem.Pin stocked blockB true = (None, recursiveB)) as HPin by by_evaluation.
  repeat (split; [assumption|]).
  exact (proj1 (Pin_recursive_then_Unpin Mem.Node_Key Mem.B58String 3 stocked blockB keyB
                  recursiveB Hk Hrec Hdir HPin)).
Defined.

Lemma Unpin_refuses_internal_pin_witness :
  (Mem.serialize rootOfA ∉ recursePin flushedA)
  ∧ (Mem.serialize rootOfA ∉ directPin flushedA)
  ∧ Mem.serialize rootOfA ∈ InternalPins flushedA
  ∧ Mem.Unpin 3 flushedA (Mem.serialize rootOfA) true
    = Some (Some (Errorf (Mem.B58String (Mem.serialize rootOfA)
                          +:+ " is pinned indirectly under internal")), flushedA).
Proof.
  assert (Mem.serialize rootOfA ∉ recursePin flushedA) as Hrec by by_evaluation.
  assert (Mem.serialize rootOfA ∉ directPin flushedA) as Hdir by by_evaluation.
  assert (Mem.serialize rootOfA ∈ InternalPins flushedA) as Hint.
  { unfold InternalPins. apply elem_of_elements. by_evaluation. }
  repeat (split; [assumption|]).
  exact (proj2 (Unpin_refuses_internal_pin Mem.B58String 3 flushedA _ true Hrec Hdir Hint)).
Defined.

Lemma hasChild_exact_witness :
  hasChild 2 (dserv stockedR) blockR keyA = Some (Ok true)
  ∧ descendant (dserv stockedR) blockR keyA.
Proof.
  assert (hasChild 2 (dserv stockedR) blockR keyA = Some (Ok true)) as Hwalk
    by by_evaluation.
  split; [exact Hwalk|].
  exact (proj1 (hasChild_exact 2 (dserv stockedR) blockR keyA) Hwalk).
Defined.

Lemma looping_lookup : dagGet looping "QmLoop" = Ok selfLoop.
Proof. by_evaluation. Qed.

Lemma hasChild_never_returns_on_cycle_witness :
  Links selfLoop = [mkLink "self" "QmLoop"]
  ∧ dagGet looping "QmLoop" = Ok selfLoop
  ∧ "QmLoop" ≠ keyA
  ∧ ∀ fuel, hasChild fuel looping selfLoop keyA = None.
Proof.
  assert ("QmLoop" ≠ keyA) as Hne by discriminate.
  split; [reflexivity|]. split; [exact looping_lookup|]. split; [exact Hne|].
  exact (hasChild_never_returns_on_cycle looping selfLoop (mkLink "self" "QmLoop") []
           keyA eq_refl looping_lookup Hne).
Defined.

Lemma isPinnedWithType_indirect_witness :
  isPinnedWithType Mem.B58String 3 pinnedR keyA "indirect" = Some (keyR, true, None)
  ∧ ∃ rk, indirectUnder pinnedR keyA rk ∧ keyR = Mem.B58String rk.
Proof.
  assert (isPinnedWithType Mem.B58String 3 pinnedR keyA "indirect"
          = Some (keyR, true, None)) as Hq by by_evaluation.
  split; [exact Hq|].
  destruct (isPinnedWithType_indirect Mem.B58String 3 pinnedR keyA _ _ _ Hq)
    as [(_ & _ & Hrk)|[(Hf & _)|(Hf & _)]]; [exact Hrk|discriminate..].
Defined.

Lemma Flush_keeps_key_sets_witness :
  Mem.Flush 3 run1 = Some (None, flushedA)
  ∧ recursePin flushedA = recursePin run1 ∧ directPin flushedA = directPin run1.
Proof.
  assert (Mem.Flush 3 run1 = Some (None, flushedA)) as Hflush by by_evaluation.
  split; [exact Hflush|].
  destruct (Flush_keeps_key_sets Mem.Node_Key Mem.emptyKey 256 (32 * 256) Mem.hash
              3 run1 None flushedA Hflush) as (Hr & Hd & _).
  by split.
Defined.

Lemma Flush_success_root_witness :
  Mem.Flush 3 run1 = Some (None, flushedA)
  ∧ ∃ hd hr, rootNode flushedA
             = Some (mkNode [mkLink linkDirect hd; mkLink linkRecursive hr] []).
Proof.
  assert (Mem.Flush 3 run1 = Some (None, flushedA)) as Hflush by by_evaluation.
  split; [exact Hflush|].
  destruct (Flush_success_root Mem.Node_Key Mem.emptyKey 256 (32 * 256) Mem.hash
              3 run1 flushedA Hflush)
    as (n & n' & hd & hr & d1 & d2 & i1 & i2 & d3 & d4 & k & _ & _ & _ & _ & Hroot & _).
  by exists hd, hr.
Defined.

Lemma stocked_acyclic : acyclic (dserv stocked) String.length.
Proof.
  intros k nd l Hget Hl. simpl in Hget.
  destruct (_ !! k) as [nd'|] eqn:Hlook; [|discriminate]. injection Hget as ->.
  apply lookup_insert_Some in Hlook as [[<- <-]|[_ Hlook]].
  { by apply not_elem_of_nil in Hl. }
  apply lookup_insert_Some in Hlook as [[<- <-]|[_ Hlook]].
  { by apply not_elem_of_nil in Hl. }
  apply lookup_insert_Some in Hlook as [[<- <-]|[_ Hlook]].
  - apply list_elem_of_singleton in Hl as ->. vm_compute. lia.
  - by rewrite lookup_empty in Hlook.
Qed.

Lemma hasChild_returns_without_cycles_witness :
  acyclic (dserv stocked) String.length
  ∧ (∀ l, l ∈ Links blockC → String.length (Hash l) < 10)
  ∧ ∃ r, ∀ fuel', 10 < fuel' → hasChild fuel' (dserv stocked) blockC keyA = Some r.
Proof.
  assert (∀ l, l ∈ Links blockC → String.length (Hash l) < 10) as Hrank.
  { intros l Hl. apply list_elem_of_singleton in Hl as ->. vm_compute. lia. }
  split; [exact stocked_acyclic|]. split; [exact Hrank|].
  exact (hasChild_returns_without_cycles (dserv stocked) String.length keyA 10 blockC
           stocked_acyclic Hrank).
Defined.

(** ** The comparison of the round-trip test *)

Lemma map_fold_false (b : bool) (m : gmap string N) :
  map_fold (λ _ _ _, false) b m = b && bool_decide (m = ∅).
Proof.
  induction m as [|k v m Hk IH] using map_ind.
  - rewrite map_fold_empty, bool_decide_eq_true_2 by done. by destruct b.
  - rewrite map_fold_insert_L; [|done|done].
    rewrite bool_decide_eq_false_2; [by destruct b|apply insert_non_empty].
Qed.

(** What the first loop of the comparison leaves: the verdict so far, and
    which keys are gone from the two maps. *)
Lemma compareEntry_fold (l : list (string * N)) :
  NoDup l.*1 →
  ∀ s (o r : gmap string N) s' o' r',
    foldl compareEntry (s, o, r) l = (s', o', r') →
    (s' = true ↔
       s = true ∧ ∀ k v got, (k, v) ∈ l → r !! k = Some got → got = v)
    ∧ (∀ k, o' !! k = None ↔ o !! k = None ∨ (k ∈ l.*1 ∧ is_Some (r !! k)))
    ∧ (∀ k, r' !! k = None ↔ r !! k = None ∨ k ∈ l.*1).
Proof.
  induction l as [|[k0 v0] l IH]; intros Hnodup s o r s' o' r'; simpl.
  { intros [= <- <- <-]. split; [|split].
    - split; [intros ->; split; [done|]|by intros [-> _]].
      intros k v got Hin. by apply not_elem_of_nil in Hin.
    - intros k. split; [by left|]. intros [?|[Hin _]]; [done|].
      by apply not_elem_of_nil in Hin.
    - intros k. split; [by left|]. intros [?|Hin]; [done|].
      by apply not_elem_of_nil in Hin. }
  apply NoDup_cons in Hnodup as [Hfresh Hnodup].
  assert (∀ k v, (k, v) ∈ l → k ≠ k0) as Hother.
  { intros k v Hin ->. apply Hfresh. apply list_elem_of_fmap. by exists (k0, v). }
  destruct (r !! k0) as [got0|] eqn:Hr0; intros Hfold;
    apply (IH Hnodup) in Hfold as (Hs & Ho & Hr); (split; [|split]).
  - rewrite Hs. split.
    + intros [Hs1 Hrest]. destruct (N.eqb_spec got0 v0) as [->|Hne]; [|done].
      split; [done|]. intros k v got Hin Hlook.
      apply elem_of_cons in Hin as [[= -> ->]|Hin]; [congruence|].
      apply (Hrest k v got Hin). rewrite lookup_delete_ne; [done|].
      intros <-. by apply (Hother _ _ Hin).
    + intros [-> Hall].
      rewrite (Hall k0 v0 got0), N.eqb_refl; [|left|done]. split; [done|].
      intros k v got Hin Hlook. apply (Hall k v got); [by right|].
      rewrite lookup_delete_ne in Hlook; [done|].
      intros <-. by apply (Hother _ _ Hin).
  - intros k. rewrite Ho. destruct (decide (k = k0)) as [->|Hne].
    + rewrite lookup_delete_eq. split; [|by left].
      intros _. right. split; [left|by rewrite Hr0].
    + rewrite !lookup_delete_ne by done. split.
      * intros [?|[Hin Hsome]]; [by left|]. right. split; [by right|done].
      * intros [?|[Hin Hsome]]; [by left|]. right. split; [|done].
        apply elem_of_cons in Hin as [?|?]; done.
  - intros k. rewrite Hr. destruct (decide (k = k0)) as [->|Hne].
    + rewrite lookup_delete_eq. split; [|by left]. intros _. right. left.
    + rewrite lookup_delete_ne by done. split.
      * intros [?|Hin]; [by left|]. right. by right.
      * intros [?|Hin]; [by left|]. right.
        apply elem_of_cons in Hin as [?|?]; done.
  - rewrite Hs. split.
    + intros [-> Hrest]. split; [done|]. intros k v got Hin Hlook.
      apply elem_of_cons in Hin as [[= -> ->]|Hin]; [congruence|].
      by apply (Hrest k v got).
    + intros [-> Hall]. split; [done|]. intros k v got Hin. apply Hall. by right.
  - intros k. rewrite Ho. split.
    + intros [?|[Hin Hsome]]; [by left|]. right. split; [by right|done].
    + intros [?|[Hin Hsome]]; [by left|]. right. split; [|done].
      apply elem_of_cons in Hin as [->|?]; [|done].
      rewrite Hr0 in Hsome. by destruct Hsome.
  - intros k. rewrite Hr. split.
    + intros [?|Hin]; [by left|]. right. by right.
    + intros [?|Hin]; [by left|].
      apply elem_of_cons in Hin as [->|?]; [by left|by right].
Qed.

(** X20: the comparison at the end of [TestMultisetRoundtrip] accepts
    exactly when the loaded map equals the stored one: same keys, same
    counts, nothing missing and nothing extra. *)
Theorem compareRoundtrip_accepts_equal_maps (orig roundtrip : gmap string N) :
  compareRoundtrip orig roundtrip = true ↔ orig = roundtrip.
Proof.
  unfold compareRoundtrip.
  destruct (foldl compareEntry (true, orig, roundtrip) (map_to_list orig))
    as [[s' o'] r'] eqn:Hfold.
  apply (compareEntry_fold _ (NoDup_fst_map_to_list orig)) in Hfold as (Hs & Ho & Hr).
  assert (∀ k, k ∈ (map_to_list orig).*1 ↔ is_Some (orig !! k)) as Hkeys.
  { intros k. rewrite list_elem_of_fmap. split.
    - intros ([k' v] & -> & Hin). apply elem_of_map_to_list in Hin. by exists v.
    - intros [v Hv]. exists (k, v). split; [done|]. by apply elem_of_map_to_list. }
  rewrite !map_fold_false, !andb_true_iff, !bool_decide_eq_true, Hs, !map_empty.
  split.
  - intros [[[_ Hvals] Hleft] Hextra]. apply map_eq. intros k.
    destruct (orig !! k) as [v|] eqn:Hk.
    + destruct (proj1 (Ho k) (Hleft k)) as [?|[_ [got Hgot]]]; [congruence|].
      rewrite Hgot. f_equal. symmetry. apply (Hvals k v got); [|done].
      by apply elem_of_map_to_list.
    + destruct (proj1 (Hr k) (Hextra k)) as [?|Hin]; [done|].
      apply Hkeys in Hin as [v Hv]. congruence.
  - intros <-. split; [split; [split; [done|]|]|].
    + intros k v got Hin Hgot. apply elem_of_map_to_list in Hin. congruence.
    + intros k. apply Ho. destruct (orig !! k) as [v|] eqn:Hk; [|by left].
      right. split; [apply Hkeys; rewrite Hk|]; by eexists.
    + intros k. apply Hr. destruct (orig !! k) as [v|] eqn:Hk; [|by left].
      right. apply Hkeys. rewrite Hk. by eexists.
Qed.

Lemma Pin_idempotent_witness :
  Mem.Pin stocked blockA false = (None, run1)
  ∧ Mem.Pin run1 blockA false = (None, run1).
Proof.
  assert (Mem.Pin stocked blockA false = (None, run1)) as HPin by by_evaluation.
  split; [exact HPin|].
  exact (proj2 (proj1 (Pin_idempotent Mem.Node_Key Mem.B58String stocked blockA false run1
                         HPin) eq_refl)).
Defined.

Lemma Pin_Unpin_make_no_internal_pins_witness :
  rtc (pinStep Mem.Node_Key Mem.B58String) stocked run4
  ∧ InternalPins run4 = [] ∧ rootNode run4 = None.
Proof.
  split; [exact run4_steps|].
  destruct (Pin_Unpin_make_no_internal_pins Mem.Node_Key Mem.B58String
              _ _ _ run4 run4_steps) as (Hi & Hr & _).
  by split.
Defined.

Lemma NewPinner_pins_nothing_witness :
  "indirect" ∈ ["all"; "direct"; "indirect"; "recursive"; "internal"]
  ∧ isPinnedWithType Mem.B58String 0 stocked keyA "indirect" = Some ("", false, None).
Proof.
  assert ("indirect" ∈ ["all"; "direct"; "indirect"; "recursive"; "internal"]) as Hin
    by set_solver.
  split; [exact Hin|].
  exact (proj1 (NewPinner_pins_nothing Mem.B58String _ _ _ 0 keyA) "indirect" Hin).
Defined.

Lemma PinWithMode_RemovePinWithMode_round_trip_witness :
  keyA ∉ recursePin stocked
  ∧ RemovePinWithMode (set_recursePin stocked ({[keyA]} ∪ recursePin stocked))
                      keyA Recursive = Returned stocked.
Proof.
  assert (keyA ∉ recursePin stocked) as Hout by by_evaluation.
  split; [exact Hout|].
  exact (proj1 (proj1 (proj2 (proj2 (PinWithMode_RemovePinWithMode_round_trip
                                       stocked keyA))) Hout)).
Defined.

Lemma LoadPinner_record_missing_witness :
  dsGet (∅ : gmap string dsvalue) pinDatastoreKey = Err "datastore: key not found"
  ∧ Mem.LoadPinner 0 ∅ ∅
    = Some (Err (Errorf ("cannot load pin state: " +:+ "datastore: key not found"))).
Proof.
  assert (dsGet (∅ : gmap string dsvalue) pinDatastoreKey
          = Err "datastore: key not found") as Hget by reflexivity.
  split; [exact Hget|].
  exact (proj1 (LoadPinner_record_missing (BS := unit) Mem.emptyKey 0 ∅ tt ∅) _ Hget).
Defined.

Lemma isPinnedWithType_answer_shape_witness :
  isPinnedWithType Mem.B58String 3 pinnedR keyA "all" = Some (keyR, true, None)
  ∧ ∃ rk, indirectUnder pinnedR keyA rk ∧ keyR = Mem.B58String rk.
Proof.
  assert (isPinnedWithType Mem.B58String 3 pinnedR keyA "all"
          = Some (keyR, true, None)) as Hq by by_evaluation.
  split; [exact Hq|].
  destruct (proj1 (isPinnedWithType_answer_shape Mem.B58String 3 pinnedR keyA "all"
                     _ _ _ Hq) eq_refl)
    as (_ & [[Hr _]|[[Hr _]|[[Hr _]|Hrk]]]); [discriminate..|exact Hrk].
Defined.
